(** * Pod security admission: the policy checks and their violation machinery

    A shallow embedding of the Go package [policy] of
    k8s.io/pod-security-admission: the lazy field-path builder ([PathFn]),
    the violation accumulator ([Violations]) with its deferred error
    constructors, the shared container traversal ([visitContainers]) and the
    check bodies [procMountV1Dot0], [hostPortsV1Dot0], [privilegedV1Dot0],
    [appArmorProfileV1Dot0] and [seLinuxOptionsV1Dot0].

    Go strings are byte strings ([string]); a Go pointer that may be nil is an
    [option]; a Go closure that may be nil is an [option] of a function taking
    [unit].  The pod handed to a check lives in a [World] that every
    evaluation threads through, so that reads and writes of the pod are
    visible in the types; a run-time panic is the outcome [Panics]. *)

From Stdlib Require Import String Ascii ZArith List.
From stdpp Require Import base option list gmap strings sorting pretty.

Local Open Scope nat_scope.

(** ** The Go libraries the package builds on *)

(** [strings.Join] and [strings.HasPrefix]. *)
Module strings.
Definition Join (elems : list string) (sep : string) : string :=
  String.concat sep elems.

Definition HasPrefix (s prefix : string) : bool := String.prefix prefix s.
End strings.

(** [sort.Strings]: the slice sorted in increasing byte-wise order.  Equal
    strings are indistinguishable, so the result is the unique sorted
    permutation whatever algorithm produces it. *)
Module sort.
Definition Strings (a : list string) : list string := merge_sort String.le a.
End sort.

(** [strconv.Itoa]. *)
Module strconv.
Definition Itoa (i : Z) : string := pretty i.
End strconv.

(** k8s.io/apimachinery/pkg/util/sets: [sets.String] is a
    [map[string]struct{}], here a [gset string]. *)
Module sets.
Definition NewString (items : list string) : gset string := list_to_set items.

Definition Insert (s : gset string) (item : string) : gset string :=
  s ∪ {[ item ]}.

Definition Has (s : gset string) (item : string) : bool :=
  bool_decide (item ∈ s).

Definition Len (s : gset string) : nat := size s.

(** [List] returns the contents as a sorted slice. *)
Definition List (s : gset string) : list string :=
  sort.Strings (elements s).
End sets.

(** k8s.io/apimachinery/pkg/util/validation/field. *)
Module field.
(** [type Path struct { name string; index string; parent *Path }] *)
#[warnings="-register-all"]
Inductive Path : Type :=
  mkPath (name : string) (index : string) (parent : option Path).

(** The chain [NewPath] and [Child] build: [name] hung below [root], then
    each of [moreNames] below the previous one. *)
Definition chain (root : option Path) (name : string)
    (moreNames : list string) : Path :=
  fold_left (fun r anotherName => mkPath anotherName "" (Some r))
            moreNames (mkPath name "" root).

Definition NewPath (name : string) (moreNames : list string) : Path :=
  chain None name moreNames.

Definition Child (p : Path) (name : string) (moreNames : list string) : Path :=
  chain (Some p) name moreNames.

Definition Index (p : Path) (i : nat) : Path :=
  mkPath "" (strconv.Itoa (Z.of_nat i)) (Some p).

Definition Key (p : Path) (key : string) : Path :=
  mkPath "" key (Some p).

(** [Path.String]: root first; a named element below a parent is preceded
    by a dot, an unnamed one is rendered as a subscript. *)
Fixpoint String (p : Path) : string :=
  let 'mkPath n i par := p in
  let here := if decide (n = "") then "[" +:+ i +:+ "]" else n in
  match par with
  | None => here
  | Some q => String q +:+ (if decide (n = "") then "" else ".") +:+ here
  end.

(** The elements of a path, root first, each with its name and index. *)
Fixpoint elems (p : Path) : list (string * string) :=
  let 'mkPath n i par := p in
  match par with
  | None => [(n, i)]
  | Some q => elems q ++ [(n, i)]
  end.

Inductive ErrorType : Type :=
| ErrorTypeForbidden
| ErrorTypeRequired.

(** A [BadValue] is an [interface{}]; the package stores strings, ints
    and bools in it. *)
Inductive Value : Type :=
| VString (s : string)
| VInt (i : Z)
| VBool (b : bool).

(** [type Error struct { Type; Field; BadValue; Detail }] *)
Record Error : Type := mkError {
  Type_ : ErrorType;
  Field : string;
  BadValue : Value;
  Detail : string;
}.

Definition Forbidden (fld : Path) (detail : string) : Error :=
  mkError ErrorTypeForbidden (String fld) (VString "") detail.

Definition Required (fld : Path) (detail : string) : Error :=
  mkError ErrorTypeRequired (String fld) (VString "") detail.

(** [err.BadValue = v] *)
Definition setBadValue (err : Error) (v : Value) : Error :=
  mkError (Type_ err) (Field err) v (Detail err).

(** [type ErrorList []*Error] *)
Definition ErrorList : Type := list Error.
End field.

(** k8s.io/api/core/v1: the parts of a pod spec the checks read. *)
Module corev1.
Definition DefaultProcMount : string := "Default".
Definition UnmaskedProcMount : string := "Unmasked".
Definition AppArmorBetaContainerAnnotationKeyPrefix : string :=
  "container.apparmor.security.beta.kubernetes.io/".
Definition AppArmorBetaProfileRuntimeDefault : string := "runtime/default".
Definition AppArmorBetaProfileNamePrefix : string := "localhost/".

Record SELinuxOptions : Type := {
  User : string;
  Role : string;
  Type_ : string;
  Level : string;
}.

Record SecurityContext : Type := {
  Privileged : option bool;
  SELinuxOptions_ : option SELinuxOptions;
  ProcMount : option string;
}.

Record ContainerPort : Type := {
  HostPort : Z;
  ContainerPort_ : Z;
}.

Record Container : Type := {
  Name : string;
  Ports : list ContainerPort;
  SecurityContext_ : option SecurityContext;
}.

(** [EphemeralContainerCommon] has the fields of [Container]; the
    traversal converts a pointer to it into a [*Container]. *)
Record EphemeralContainer : Type := {
  EphemeralContainerCommon : Container;
  TargetContainerName : string;
}.

Record PodSecurityContext : Type := {
  podSELinuxOptions : option SELinuxOptions;
}.

Record PodSpec : Type := {
  InitContainers : list Container;
  Containers : list Container;
  EphemeralContainers : list EphemeralContainer;
  podSecurityContext : option PodSecurityContext;
  HostUsers : option bool;
}.
End corev1.

(** k8s.io/apimachinery/pkg/apis/meta/v1. *)
Module metav1.
Record ObjectMeta : Type := {
  Annotations : gmap string string;
}.
End metav1.

(** ** The world of an evaluation *)

(** What an evaluation can reach: the process-wide relaxation toggle and the
    two objects the check's [podMetadata] and [podSpec] pointers designate.
    The pointers themselves are left implicit: there is one pod per world. *)
Record World : Type := {
  relaxPolicyForUserNamespacePods : bool;
  podMetadata : metav1.ObjectMeta;
  podSpec : corev1.PodSpec;
}.

(** A call either returns a value and the world it leaves behind, or panics
    (a nil dereference, an index out of range). *)
Inductive Outcome (A : Type) : Type :=
| Returns (a : A) (w : World)
| Panics.
Arguments Returns {A} a w.
Arguments Panics {A}.

Definition M (A : Type) : Type := World -> Outcome A.

Definition ret {A} (a : A) : M A := fun w => Returns a w.

Definition bind {A B} (m : M A) (k : A -> M B) : M B :=
  fun w => match m w with
           | Returns a w' => k a w'
           | Panics => Panics
           end.

Definition panic {A} : M A := fun _ => Panics.

Notation "x <- c1 ;; c2" := (bind c1 (fun x => c2))
  (at level 100, c1 at next level, right associativity).

(** [for i, x := range xs { body }]: the slice is evaluated once, the body
    runs for each index in increasing order and threads the variables [s] it
    assigns. *)
Fixpoint rangeFrom {A St} (i : nat) (xs : list A)
    (body : nat -> A -> St -> M St) (s : St) : M St :=
  match xs with
  | [] => ret s
  | x :: xs' => s' <- body i x s ;; rangeFrom (S i) xs' body s'
  end.

Definition range {A St} (xs : list A) (body : nat -> A -> St -> M St) (s : St)
    : M St :=
  rangeFrom 0 xs body s.

(** A [*corev1.Container] into the pod spec of the world. *)
Inductive ContainerPtr : Type :=
| InitContainerAt (i : nat)
| ContainerAt (i : nat)
| EphemeralContainerAt (i : nat).

Definition deref (spec : corev1.PodSpec) (ptr : ContainerPtr)
    : option corev1.Container :=
  match ptr with
  | InitContainerAt i => corev1.InitContainers spec !! i
  | ContainerAt i => corev1.Containers spec !! i
  | EphemeralContainerAt i =>
      corev1.EphemeralContainerCommon <$> corev1.EphemeralContainers spec !! i
  end.

(** [*podSpec] and [*podMetadata]. *)
Definition getPodSpec : M corev1.PodSpec := fun w => Returns (podSpec w) w.
Definition getPodMetadata : M metav1.ObjectMeta :=
  fun w => Returns (podMetadata w) w.

(** [&podSpec.Containers[i]] and the like: the index is bounds-checked. *)
Definition addrOf (ptr : ContainerPtr) : M ContainerPtr :=
  fun w => match deref (podSpec w) ptr with
           | Some _ => Returns ptr w
           | None => Panics
           end.

(** Reading the container behind a pointer. *)
Definition load (ptr : ContainerPtr) : M corev1.Container :=
  fun w => match deref (podSpec w) ptr with
           | Some c => Returns c w
           | None => Panics
           end.

(** ** Lazy field paths (paths.go) *)

(** [type PathFn func() *field.Path] *)
Definition PathFn : Type := option (unit -> option field.Path).

Definition withPath (path : option field.Path) : PathFn :=
  match path with
  | None => None
  | Some _ => Some (fun _ => path)
  end.

Definition index (parent : PathFn) (i : nat) : PathFn :=
  match parent with
  | None => None
  | Some parent =>
      Some (fun _ => match parent tt with
                     | None => None
                     | Some p => Some (field.Index p i)
                     end)
  end.

Definition child (parent : PathFn) (name : string) (moreNames : list string)
    : PathFn :=
  match parent with
  | None => None
  | Some parent =>
      Some (fun _ => match parent tt with
                     | None => None
                     | Some p => Some (field.Child p name moreNames)
                     end)
  end.

Definition key (parent : PathFn) (key : string) : PathFn :=
  match parent with
  | None => None
  | Some parent =>
      Some (fun _ => match parent tt with
                     | None => None
                     | Some p => Some (field.Key p key)
                     end)
  end.

Definition annotationsPath : PathFn :=
  withPath (Some (field.NewPath "metadata" ["annotations"])).
Definition specPath : PathFn := withPath (Some (field.NewPath "spec" [])).
Definition initContainersFldPath : PathFn := child specPath "initContainers" [].
Definition containersFldPath : PathFn := child specPath "containers" [].
Definition ephemeralContainersFldPath : PathFn :=
  child specPath "ephemeralContainers" [].
Definition securityContextPath : PathFn := child specPath "securityContext" [].
Definition seLinuxOptionsTypePath : PathFn :=
  child securityContextPath "seLinuxOptions" ["type"].
Definition seLinuxOptionsUserPath : PathFn :=
  child securityContextPath "seLinuxOptions" ["user"].
Definition seLinuxOptionsRolePath : PathFn :=
  child securityContextPath "seLinuxOptions" ["role"].

(** Calling a path function; [None] stands for both the nil function, which
    the package never calls, and a nil result. *)
Definition resolve (pathFn : PathFn) : option field.Path :=
  match pathFn with
  | None => None
  | Some f => f tt
  end.

(** ** Violations and deferred errors (violations.go) *)

(** [type ErrFn func() *field.Error] *)
Definition ErrFn : Type := option (unit -> option field.Error).

Record Violations : Type := mkViolations {
  data : list string;
  errs : option field.ErrorList;
  v_withFieldErrors : bool;
}.

Definition NewViolations (withFieldErrors : bool) : Violations :=
  let violations := mkViolations [] None withFieldErrors in
  if withFieldErrors
  then mkViolations (data violations) (Some []) (v_withFieldErrors violations)
  else violations.

(** [*v.errs = append( *v.errs, err)]: panics when [v.errs] is nil. *)
Definition appendErr (v : Violations) (err : field.Error) : M Violations :=
  match errs v with
  | None => panic
  | Some l => ret (mkViolations (data v) (Some (l ++ [err])) (v_withFieldErrors v))
  end.

Definition Add (v : Violations) (data_ : string) (errFns : list ErrFn)
    : M Violations :=
  let v := mkViolations (data v ++ [data_]) (errs v) (v_withFieldErrors v) in
  if v_withFieldErrors v then
    range errFns (fun _ errFn v =>
      match errFn with
      | Some errFn =>
          match errFn tt with
          | Some err => appendErr v err
          | None => ret v
          end
      | None => ret v
      end) v
  else ret v.

Definition Empty (v : Violations) : bool := length (data v) =? 0.
Definition Data (v : Violations) : list string := data v.
Definition Len (v : Violations) : nat := length (data v).
Definition Errs (v : Violations) : option field.ErrorList := errs v.

Definition withBadValue (f : ErrFn) (badValue : field.Value) : ErrFn :=
  match f with
  | None => None
  | Some f =>
      Some (fun _ => match f tt with
                     | None => None
                     | Some err => Some (field.setBadValue err badValue)
                     end)
  end.

Definition forbidden (pathFn : PathFn) : ErrFn :=
  match pathFn with
  | None => None
  | Some pathFn =>
      Some (fun _ => match pathFn tt with
                     | None => None
                     | Some path => Some (field.Forbidden path "")
                     end)
  end.

Definition required (pathFn : PathFn) : ErrFn :=
  match pathFn with
  | None => None
  | Some pathFn =>
      Some (fun _ => match pathFn tt with
                     | None => None
                     | Some path => Some (field.Required path "")
                     end)
  end.

(** Calling an error function, nil or not. *)
Definition invoke (errFn : ErrFn) : option field.Error :=
  match errFn with
  | None => None
  | Some f => f tt
  end.

(** ** Declarations of the package that the checks use (checks.go, helpers.go) *)

(** Modelled from the spec: the per-call options of section 3, whose one
    recognised field is [withFieldErrors]. *)
Record options : Type := { withFieldErrors : bool }.

(** Modelled from the spec: the [CheckResult] of section 3, with fields
    [Allowed], [ForbiddenReason], [ForbiddenDetail] and the optional
    [ErrList]. *)
Record CheckResult : Type := {
  Allowed : bool;
  ForbiddenReason : string;
  ForbiddenDetail : string;
  ErrList : option field.ErrorList;
}.

(** [CheckResult{Allowed: true}]: the other fields have their zero values. *)
Definition allowed : CheckResult :=
  {| Allowed := true; ForbiddenReason := ""; ForbiddenDetail := "";
     ErrList := None |}.

(** The one-byte string that holds a double quote. *)
Definition dquote : string := String (ascii_of_nat 34) EmptyString.

(** Modelled from the spec: the helper [pluralize], which picks the noun by
    the count (section 4.4, "pluralized"): the singular for exactly one. *)
Definition pluralize (singular plural : string) (count : nat) : string :=
  if count =? 1 then singular else plural.

(** Modelled from the spec: the helper [joinQuote], which renders the items
    quoted and comma-joined (sections 4.4 and 8). *)
Definition joinQuote (items : list string) : string :=
  strings.Join ((fun item => dquote +:+ item +:+ dquote) <$> items) ", ".

(** Modelled from the spec: the setter of the process-wide relaxation toggle
    (sections 3 and 6). *)
Definition RelaxPolicyForUserNamespacePods (relax : bool) : M unit :=
  fun w => Returns tt {| relaxPolicyForUserNamespacePods := relax;
                         podMetadata := podMetadata w;
                         podSpec := podSpec w |}.

(** Modelled from the spec: the helper [relaxPolicyForUserNamespacePod],
    true when the toggle is engaged and the pod is in a user namespace
    ([hostUsers: false]). *)
Definition relaxPolicyForUserNamespacePod : M bool :=
  fun w => Returns (relaxPolicyForUserNamespacePods w &&
                    bool_decide (corev1.HostUsers (podSpec w) = Some false)) w.

(** ** The container traversal (visitor.go) *)

(** [type ContainerVisitor func(container *corev1.Container, pathFn PathFn)];
    [St] holds the variables the closure captures and assigns. *)
Definition ContainerVisitor (St : Type) : Type :=
  ContainerPtr -> PathFn -> St -> M St.

Definition visitContainers {St} (opts : options) (visitor : ContainerVisitor St)
    (s : St) : M St :=
  spec <- getPodSpec ;;
  s <- range (corev1.InitContainers spec) (fun i _ s =>
         let pathFn :=
           if withFieldErrors opts then index initContainersFldPath i else None in
         container <- addrOf (InitContainerAt i) ;;
         visitor container pathFn s) s ;;
  spec <- getPodSpec ;;
  s <- range (corev1.Containers spec) (fun i _ s =>
         let pathFn :=
           if withFieldErrors opts then index containersFldPath i else None in
         container <- addrOf (ContainerAt i) ;;
         visitor container pathFn s) s ;;
  spec <- getPodSpec ;;
  range (corev1.EphemeralContainers spec) (fun i _ s =>
    let pathFn :=
      if withFieldErrors opts then index ephemeralContainersFldPath i else None in
    container <- addrOf (EphemeralContainerAt i) ;;
    visitor container pathFn s) s.

(** ** procMount (check_procMount.go) *)

Definition procMountVisitor (opts : options)
    : ContainerVisitor (Violations * gset string) :=
  fun container pathFn '(badContainers, forbiddenProcMountTypes) =>
    c <- load container ;;
    match corev1.SecurityContext_ c with
    | None => ret (badContainers, forbiddenProcMountTypes)
    | Some sc =>
        match corev1.ProcMount sc with
        | None => ret (badContainers, forbiddenProcMountTypes)
        | Some procMount =>
            if negb (String.eqb procMount corev1.DefaultProcMount) then
              badContainers <-
                (if withFieldErrors opts then
                   Add badContainers (corev1.Name c)
                     [withBadValue
                        (forbidden (child pathFn "securityContext" ["procMount"]))
                        (field.VString procMount)]
                 else Add badContainers (corev1.Name c) []) ;;
              ret (badContainers, sets.Insert forbiddenProcMountTypes procMount)
            else ret (badContainers, forbiddenProcMountTypes)
        end
    end.

(** What the check returns once the traversal is over. *)
Definition procMountResult (s : Violations * gset string) : CheckResult :=
  let '(badContainers, forbiddenProcMountTypes) := s in
  if negb (Empty badContainers) then
    {| Allowed := false;
       ForbiddenReason := "procMount";
       ForbiddenDetail :=
         pluralize "container" "containers" (Len badContainers) +:+ " " +:+
         joinQuote (Data badContainers) +:+
         " must not set securityContext.procMount to " +:+
         joinQuote (sets.List forbiddenProcMountTypes);
       ErrList := Errs badContainers |}
  else allowed.

Definition procMountV1Dot0 (opts : options) : M CheckResult :=
  let badContainers := NewViolations (withFieldErrors opts) in
  let forbiddenProcMountTypes := sets.NewString [] in
  s <- visitContainers opts (procMountVisitor opts)
         (badContainers, forbiddenProcMountTypes) ;;
  ret (procMountResult s).

(** The relaxation-aware revision of the same check.  Its visitor is written
  against the traversal's earlier signature ([path *field.Path],
  [withBadValue(forbidden(path.Child(..)), v)]); with the helpers of this
  tree it is [procMountVisitor]. *)
Module relaxed.
Definition procMountV1Dot0 (opts : options) : M CheckResult :=
  relax <- relaxPolicyForUserNamespacePod ;;
  if (relax : bool) then ret allowed
  else
    let badContainers := NewViolations (withFieldErrors opts) in
    let forbiddenProcMountTypes := sets.NewString [] in
    s <- visitContainers opts (procMountVisitor opts)
           (badContainers, forbiddenProcMountTypes) ;;
    ret (procMountResult s).
End relaxed.

(** ** privileged (check_privileged.go) *)

(** Written against the earlier signature too: [path.Child] is [child] and
    [withBadValue(forbidden(..), true)] is [withBadValue] of [forbidden]. *)
Definition privilegedVisitor (opts : options) : ContainerVisitor Violations :=
  fun container path badContainers =>
    c <- load container ;;
    if match corev1.SecurityContext_ c with
       | Some sc => match corev1.Privileged sc with
                    | Some privileged => privileged
                    | None => false
                    end
       | None => false
       end
    then
      if withFieldErrors opts then
        Add badContainers (corev1.Name c)
          [withBadValue (forbidden (child path "securityContext" ["privileged"]))
                        (field.VBool true)]
      else Add badContainers (corev1.Name c) []
    else ret badContainers.

Definition privilegedV1Dot0 (opts : options) : M CheckResult :=
  let badContainers := NewViolations (withFieldErrors opts) in
  badContainers <- visitContainers opts (privilegedVisitor opts) badContainers ;;
  if negb (Empty badContainers) then
    ret {| Allowed := false;
           ForbiddenReason := "privileged";
           ForbiddenDetail :=
             pluralize "container" "containers" (Len badContainers) +:+ " " +:+
             joinQuote (Data badContainers) +:+
             " must not set securityContext.privileged=true";
           ErrList := Errs badContainers |}
  else ret allowed.

(** ** hostPorts (check_hostPorts.go) *)

Definition hostPortsVisitor (opts : options)
    : ContainerVisitor (Violations * gset string) :=
  fun container pathFn '(badContainers, forbiddenHostPorts) =>
    c <- load container ;;
    let valid := true in
    let errFns : list ErrFn := [] in
    s <- range (corev1.Ports c) (fun i p '(valid, errFns, forbiddenHostPorts) =>
           if negb (corev1.HostPort p =? 0)%Z then
             let valid := false in
             let forbiddenHostPorts :=
               sets.Insert forbiddenHostPorts (strconv.Itoa (corev1.HostPort p)) in
             if withFieldErrors opts then
               ret (valid,
                    errFns ++
                      [withBadValue
                         (forbidden
                            (child (index (child pathFn "ports" []) i) "hostPort" []))
                         (field.VInt (corev1.HostPort p))],
                    forbiddenHostPorts)
             else ret (valid, errFns, forbiddenHostPorts)
           else ret (valid, errFns, forbiddenHostPorts))
         (valid, errFns, forbiddenHostPorts) ;;
    let '(valid, errFns, forbiddenHostPorts) := s in
    if negb valid then
      badContainers <-
        (if withFieldErrors opts then Add badContainers (corev1.Name c) errFns
         else Add badContainers (corev1.Name c) []) ;;
      ret (badContainers, forbiddenHostPorts)
    else ret (badContainers, forbiddenHostPorts).

Definition hostPortsV1Dot0 (opts : options) : M CheckResult :=
  let badContainers := NewViolations (withFieldErrors opts) in
  let forbiddenHostPorts := sets.NewString [] in
  s <- visitContainers opts (hostPortsVisitor opts)
         (badContainers, forbiddenHostPorts) ;;
  let '(badContainers, forbiddenHostPorts) := s in
  if negb (Empty badContainers) then
    ret {| Allowed := false;
           ForbiddenReason := "hostPort";
           ForbiddenDetail :=
             pluralize "container" "containers" (Len badContainers) +:+ " " +:+
             joinQuote (Data badContainers) +:+ " " +:+
             pluralize "uses" "use" (Len badContainers) +:+ " " +:+
             pluralize "hostPort" "hostPorts" (sets.Len forbiddenHostPorts) +:+
             " " +:+ strings.Join (sets.List forbiddenHostPorts) ", ";
           ErrList := Errs badContainers |}
  else ret allowed.

(** ** appArmorProfile (check_appArmorProfile.go) *)

(** Go leaves the order in which [range] yields the entries of a map
    unspecified, and it may differ from one evaluation to the next.  An
    evaluation therefore takes the order the runtime happens to use, which
    enumerates each entry of the map once. *)
Definition MapOrder : Type := gmap string string -> list (string * string).

Definition enumerates (order : MapOrder) : Prop :=
  forall m, order m ≡ₚ map_to_list m.

Definition allowedProfile (profile : string) : bool :=
  (String.length profile =? 0) ||
  String.eqb profile corev1.AppArmorBetaProfileRuntimeDefault ||
  strings.HasPrefix profile corev1.AppArmorBetaProfileNamePrefix.

(** [quote] is the rendering of [fmt]'s [%q] verb ([strconv.Quote]). *)
Definition appArmorProfileV1Dot0 (quote : string -> string) (order : MapOrder)
    (opts : options) : M CheckResult :=
  let forbiddenAppArmorProfile := NewViolations (withFieldErrors opts) in
  podMetadata <- getPodMetadata ;;
  forbiddenAppArmorProfile <-
    range (order (metav1.Annotations podMetadata))
      (fun _ '(k, v) forbiddenAppArmorProfile =>
         if strings.HasPrefix k corev1.AppArmorBetaContainerAnnotationKeyPrefix
            && negb (allowedProfile v)
         then
           if withFieldErrors opts then
             Add forbiddenAppArmorProfile (k +:+ "=" +:+ quote v)
               [withBadValue (forbidden (key annotationsPath k)) (field.VString v)]
           else Add forbiddenAppArmorProfile (k +:+ "=" +:+ quote v) []
         else ret forbiddenAppArmorProfile)
      forbiddenAppArmorProfile ;;
  if negb (Empty forbiddenAppArmorProfile) then
    (* [sort.Strings] sorts the slice [Data] returned in place *)
    let forbiddenValues := sort.Strings (Data forbiddenAppArmorProfile) in
    let forbiddenAppArmorProfile :=
      mkViolations forbiddenValues (errs forbiddenAppArmorProfile)
                   (v_withFieldErrors forbiddenAppArmorProfile) in
    ret {| Allowed := false;
           ForbiddenReason :=
             pluralize "forbidden AppArmor profile" "forbidden AppArmor profiles"
                       (length forbiddenValues);
           ForbiddenDetail := strings.Join forbiddenValues ", ";
           ErrList := Errs forbiddenAppArmorProfile |}
  else ret allowed.

(** ** seLinuxOptions (check_seLinuxOptions.go) *)

Definition selinux_allowed_types_1_0 : gset string :=
  sets.NewString [""; "container_t"; "container_init_t"; "container_kvm_t"].

(** The variables of [seLinuxOptionsV1Dot0] that its closure
    [validSELinuxOptions] assigns. *)
Record seLinuxVars : Type := mkSeLinuxVars {
  badContainersErrFns : list ErrFn;
  badPodErrFns : list ErrFn;
  badTypes : gset string;
  setUser : bool;
  setRole : bool;
}.

(** One of the three field tests of [validSELinuxOptions]: on a bad field,
    record the deferred error on the container list when a path function was
    given, on the pod list at pod level with field errors on. *)
Definition recordSELinuxErr (opts : options) (pathFn : PathFn) (isPodLevel : bool)
    (fld : string) (podPath : PathFn) (value : string) (vars : seLinuxVars)
    : seLinuxVars :=
  match pathFn with
  | Some _ =>
      mkSeLinuxVars
        (badContainersErrFns vars ++
           [withBadValue
              (forbidden (child pathFn "securityContext" ["seLinuxOptions"; fld]))
              (field.VString value)])
        (badPodErrFns vars) (badTypes vars) (setUser vars) (setRole vars)
  | None =>
      if isPodLevel && withFieldErrors opts then
        mkSeLinuxVars
          (badContainersErrFns vars)
          (badPodErrFns vars ++
             [withBadValue (forbidden podPath) (field.VString value)])
          (badTypes vars) (setUser vars) (setRole vars)
      else vars
  end.

Definition validSELinuxOptions (opts : options)
    (selinuxOpts : corev1.SELinuxOptions) (pathFn : PathFn) (isPodLevel : bool)
    (vars : seLinuxVars) : bool * seLinuxVars :=
  let valid := true in
  let '(valid, vars) :=
    if negb (sets.Has selinux_allowed_types_1_0 (corev1.Type_ selinuxOpts)) then
      let vars :=
        mkSeLinuxVars (badContainersErrFns vars) (badPodErrFns vars)
          (sets.Insert (badTypes vars) (corev1.Type_ selinuxOpts))
          (setUser vars) (setRole vars) in
      (false, recordSELinuxErr opts pathFn isPodLevel "type"
                seLinuxOptionsTypePath (corev1.Type_ selinuxOpts) vars)
    else (valid, vars) in
  let '(valid, vars) :=
    if 0 <? String.length (corev1.User selinuxOpts) then
      let vars :=
        mkSeLinuxVars (badContainersErrFns vars) (badPodErrFns vars)
          (badTypes vars) true (setRole vars) in
      (false, recordSELinuxErr opts pathFn isPodLevel "user"
                seLinuxOptionsUserPath (corev1.User selinuxOpts) vars)
    else (valid, vars) in
  let '(valid, vars) :=
    if 0 <? String.length (corev1.Role selinuxOpts) then
      let vars :=
        mkSeLinuxVars (badContainersErrFns vars) (badPodErrFns vars)
          (badTypes vars) (setUser vars) true in
      (false, recordSELinuxErr opts pathFn isPodLevel "role"
                seLinuxOptionsRolePath (corev1.Role selinuxOpts) vars)
    else (valid, vars) in
  (valid, vars).

Definition seLinuxVisitor (opts : options)
    : ContainerVisitor (seLinuxVars * list string) :=
  fun container pathFn '(vars, badContainers) =>
    c <- load container ;;
    match corev1.SecurityContext_ c with
    | Some sc =>
        match corev1.SELinuxOptions_ sc with
        | Some selinuxOpts =>
            let '(valid, vars) :=
              validSELinuxOptions opts selinuxOpts pathFn false vars in
            if negb valid then ret (vars, badContainers ++ [corev1.Name c])
            else ret (vars, badContainers)
        | None => ret (vars, badContainers)
        end
    | None => ret (vars, badContainers)
    end.

Definition seLinuxOptionsV1Dot0 (opts : options) : M CheckResult :=
  let badSetters := NewViolations (withFieldErrors opts) in
  let vars := mkSeLinuxVars [] [] (sets.NewString []) false false in
  podSpec <- getPodSpec ;;
  s <- match corev1.podSecurityContext podSpec with
       | Some psc =>
           match corev1.podSELinuxOptions psc with
           | Some selinuxOpts =>
               let '(valid, vars) :=
                 validSELinuxOptions opts selinuxOpts None true vars in
               if negb valid then
                 badSetters <- Add badSetters "pod" (badPodErrFns vars) ;;
                 ret (badSetters, vars)
               else ret (badSetters, vars)
           | None => ret (badSetters, vars)
           end
       | None => ret (badSetters, vars)
       end ;;
  let '(badSetters, vars) := s in
  let badContainers : list string := [] in
  s <- visitContainers opts (seLinuxVisitor opts) (vars, badContainers) ;;
  let '(vars, badContainers) := s in
  badSetters <-
    (if 0 <? length badContainers then
       Add badSetters
         (pluralize "container" "containers" (length badContainers) +:+ " " +:+
          joinQuote badContainers)
         (badContainersErrFns vars)
     else ret badSetters) ;;
  if negb (Empty badSetters) then
    let badData : list string := [] in
    let badData :=
      if 0 <? sets.Len (badTypes vars) then
        badData ++ [pluralize "type" "types" (sets.Len (badTypes vars)) +:+ " " +:+
                    joinQuote (sets.List (badTypes vars))]
      else badData in
    let badData :=
      if setUser vars then badData ++ ["user may not be set"] else badData in
    let badData :=
      if setRole vars then badData ++ ["role may not be set"] else badData in
    ret {| Allowed := false;
           ForbiddenReason := "seLinuxOptions";
           ForbiddenDetail :=
             strings.Join (Data badSetters) " and " +:+
             " set forbidden securityContext.seLinuxOptions: " +:+
             strings.Join badData "; ";
           ErrList := Errs badSetters |}
  else ret allowed.

(** * The vocabulary of the specification *)

(** ** Outcomes of evaluations *)

(** [returns m w Q]: run in the world [w], the call [m] does not panic,
    leaves the world exactly as it found it, and its result satisfies [Q]. *)
Definition returns {A} (m : M A) (w : World) (Q : A -> Prop) : Prop :=
  exists a, m w = Returns a w /\ Q a.

(** The call returns, and the pod metadata and pod spec of the world it
    leaves are those it was given. *)
Definition leavesPodIntact {A} (m : M A) (w : World) : Prop :=
  exists a w', m w = Returns a w' /\
               podMetadata w' = podMetadata w /\ podSpec w' = podSpec w.

(** Two evaluations of a call on the same world return the same value. *)
Definition deterministic {A} (m : M A) (w : World) : Prop :=
  exists a, m w = Returns a w /\
            forall a' w', m w = Returns a' w' -> a' = a.

(** ** The accumulator as a function *)

(** The errors a call of [Add] appends when field errors are on. *)
Definition raised (errFns : list ErrFn) : list field.Error := omap invoke errFns.

(** [Add] as a function, for accumulators made by [NewViolations]. *)
Definition added (v : Violations) (data_ : string) (errFns : list ErrFn)
    : Violations :=
  mkViolations (data v ++ [data_])
    (if v_withFieldErrors v then (fun l => l ++ raised errFns) <$> errs v
     else errs v)
    (v_withFieldErrors v).

(** An accumulator tracks field errors exactly when it has a list for them. *)
Definition consistent (v : Violations) : Prop :=
  if v_withFieldErrors v then is_Some (errs v) else errs v = None.

(** ** The calls of the traversal *)

(** The path function the traversal hands over for the element [i] of the
    collection at [base]. *)
Definition pathFnAt (opts : options) (base : PathFn) (i : nat) : PathFn :=
  if withFieldErrors opts then index base i else None.

(** One call of the visitor: the pointer and path function it receives, and
    the container behind the pointer. *)
Definition Visit : Type := ContainerPtr * corev1.Container * PathFn.

(** The calls the traversal of a pod spec makes, in order. *)
Definition visits (opts : options) (spec : corev1.PodSpec) : list Visit :=
  imap (fun i c => (InitContainerAt i, c, pathFnAt opts initContainersFldPath i))
       (corev1.InitContainers spec) ++
  imap (fun i c => (ContainerAt i, c, pathFnAt opts containersFldPath i))
       (corev1.Containers spec) ++
  imap (fun i e => (EphemeralContainerAt i, corev1.EphemeralContainerCommon e,
                    pathFnAt opts ephemeralContainersFldPath i))
       (corev1.EphemeralContainers spec).

(** Calling the visitor for each entry of a list of visits. *)
Fixpoint visitEach {St} (visitor : ContainerVisitor St) (vs : list Visit)
    (s : St) : M St :=
  match vs with
  | [] => ret s
  | (ptr, _, pathFn) :: vs' => s' <- visitor ptr pathFn s ;; visitEach visitor vs' s'
  end.

(** A visitor that leaves the pod spec as it is, whatever else it does. *)
Definition keepsPodSpec {St} (visitor : ContainerVisitor St) : Prop :=
  forall ptr pathFn s w s' w',
    visitor ptr pathFn s w = Returns s' w' -> podSpec w' = podSpec w.

(** The body of one loop of the traversal, over a collection whose element
    [i] is addressed by [at_ i]. *)
Definition visitAt {St X} (opts : options) (visitor : ContainerVisitor St)
    (at_ : nat -> ContainerPtr) (base : PathFn) : nat -> X -> St -> M St :=
  fun i _ s => container <- addrOf (at_ i) ;;
               visitor container (pathFnAt opts base i) s.

Definition pointer (v : Visit) : ContainerPtr := v.1.1.

Definition visited (v : Visit) : corev1.Container := v.1.2.

(** The containers of a pod spec in the order of the traversal. *)
Definition allContainers (spec : corev1.PodSpec) : list corev1.Container :=
  corev1.InitContainers spec ++ corev1.Containers spec ++
  (corev1.EphemeralContainerCommon <$> corev1.EphemeralContainers spec).

(** A visitor that only reads: on a pointer into the pod it returns and
    leaves the world as it is. *)
Definition readsOnly {St} (visitor : ContainerVisitor St) (w : World) : Prop :=
  forall ptr pathFn s,
    is_Some (deref (podSpec w) ptr) -> exists s', visitor ptr pathFn s w = Returns s' w.

(** ** The checks as functions of what they traverse *)

(** The name and proc mount type of a container that sets a type other than
    the default. *)
Definition procMountOffender (c : corev1.Container) : option (string * string) :=
  sc ← corev1.SecurityContext_ c;
  procMount ← corev1.ProcMount sc;
  if String.eqb procMount corev1.DefaultProcMount then None
  else Some (corev1.Name c, procMount).

(** The deferred error the visitor hands to [Add] for an offender. *)
Definition procMountErrFn (pathFn : PathFn) (procMount : string) : ErrFn :=
  withBadValue (forbidden (child pathFn "securityContext" ["procMount"]))
               (field.VString procMount).

(** What one call of the visitor does to the variables it captures. *)
Definition procMountStep (opts : options) (s : Violations * gset string)
    (v : Visit) : Violations * gset string :=
  let '(ptr, c, pathFn) := v in
  match procMountOffender c with
  | Some (name, procMount) =>
      (added s.1 name
         (if withFieldErrors opts then [procMountErrFn pathFn procMount] else []),
       sets.Insert s.2 procMount)
  | None => s
  end.

(** The check as a function of the visits of the pod. *)
Definition procMountOf (opts : options) (vs : list Visit) : CheckResult :=
  procMountResult
    (fold_left (procMountStep opts) vs
       (NewViolations (withFieldErrors opts), sets.NewString [])).

(** The offenders among the visits, and the errors raised for them. *)
Definition procMountOffenders (vs : list Visit) : list (string * string) :=
  omap (fun v => procMountOffender (visited v)) vs.

Definition procMountErrFns (opts : options) (vs : list Visit) : list ErrFn :=
  vs ≫= fun '(_, c, pathFn) =>
    match procMountOffender c with
    | Some (_, procMount) =>
        if withFieldErrors opts then [procMountErrFn pathFn procMount] else []
    | None => []
    end.

Definition procMountDetail (offenders : list (string * string)) : string :=
  pluralize "container" "containers" (length offenders) +:+ " " +:+
  joinQuote offenders.*1 +:+
  " must not set securityContext.procMount to " +:+
  joinQuote (sets.List (list_to_set offenders.*2)).

(** The world the setter of the toggle leaves behind. *)
Definition toggled (relax : bool) (w : World) : World :=
  {| relaxPolicyForUserNamespacePods := relax;
     podMetadata := podMetadata w;
     podSpec := podSpec w |}.

(** The one statement of the loop body of the check: whether the annotation
    is a forbidden AppArmor profile, and what is recorded for it. *)
Definition appArmorOffender (entry : string * string) : bool :=
  strings.HasPrefix entry.1 corev1.AppArmorBetaContainerAnnotationKeyPrefix
  && negb (allowedProfile entry.2).

Definition appArmorStep (quote : string -> string) (opts : options)
    (v : Violations) (entry : string * string) : Violations :=
  if appArmorOffender entry then
    added v (entry.1 +:+ "=" +:+ quote entry.2)
      (if withFieldErrors opts
       then [withBadValue (forbidden (key annotationsPath entry.1))
                          (field.VString entry.2)]
       else [])
  else v.

(** What the check returns once the annotations have been ranged over. *)
Definition appArmorResult (v : Violations) : CheckResult :=
  if negb (Empty v) then
    {| Allowed := false;
       ForbiddenReason :=
         pluralize "forbidden AppArmor profile" "forbidden AppArmor profiles"
                   (length (sort.Strings (Data v)));
       ForbiddenDetail := strings.Join (sort.Strings (Data v)) ", ";
       ErrList := Errs v |}
  else allowed.

(** The check as a function of the entries in the order they are yielded. *)
Definition appArmorOf (quote : string -> string) (opts : options)
    (entries : list (string * string)) : CheckResult :=
  appArmorResult
    (fold_left (appArmorStep quote opts) entries
       (NewViolations (withFieldErrors opts))).

(** The label and the deferred error recorded for a forbidden annotation. *)
Definition appArmorLabel (quote : string -> string) (entry : string * string)
    : option string :=
  if appArmorOffender entry then Some (entry.1 +:+ "=" +:+ quote entry.2)
  else None.

Definition appArmorErr (entry : string * string) : option field.Error :=
  if appArmorOffender entry
  then invoke (withBadValue (forbidden (key annotationsPath entry.1))
                            (field.VString entry.2))
  else None.

(** Two error lists with the same entries, in whatever order. *)
Definition sameErrors (e1 e2 : option field.ErrorList) : Prop :=
  match e1, e2 with
  | Some l1, Some l2 => l1 ≡ₚ l2
  | None, None => True
  | _, _ => False
  end.

(** ** What every result satisfies *)

(** An accumulator made for the options of the call. *)
Definition tracks (opts : options) (v : Violations) : Prop :=
  consistent v /\ v_withFieldErrors v = withFieldErrors opts.

(** What every check promises about its result: an allowed result carries
    nothing else, and no error list comes back when none was asked for. *)
Definition wellFormed (opts : options) (r : CheckResult) : Prop :=
  (Allowed r = true ->
   ForbiddenReason r = "" /\ ForbiddenDetail r = "" /\ ErrList r = None) /\
  (withFieldErrors opts = false -> ErrList r = None).

(** The implication a result satisfies when it is well formed. *)
Definition cleanWhenAllowed (r : CheckResult) : Prop :=
  Allowed r = true ->
  ForbiddenReason r = "" /\ ForbiddenDetail r = "" /\ ErrList r = None.

(** A run of [Add] calls, each with its label and error functions. *)
Definition addAll (calls : list (string * list ErrFn)) (v : Violations)
    : M Violations :=
  range calls (fun _ call v => Add v call.1 call.2) v.

(** ** The pods of TestProcMount *)

Module tests.
Definition securityContext (procMount : option string)
    : option corev1.SecurityContext :=
  Some {| corev1.Privileged := None; corev1.SELinuxOptions_ := None;
          corev1.ProcMount := procMount |}.

Definition container (name : string) (sc : option corev1.SecurityContext)
    : corev1.Container :=
  {| corev1.Name := name; corev1.Ports := []; corev1.SecurityContext_ := sc |}.

(** Containers a to e of the test table; [hostUsers] is false in its first
    two entries and unset in the third. *)
Definition procMountSpec (hostUsers : option bool) : corev1.PodSpec :=
  {| corev1.InitContainers := [];
     corev1.Containers :=
       [container "a" None;
        container "b" (securityContext None);
        container "c" (securityContext (Some corev1.DefaultProcMount));
        container "d" (securityContext (Some corev1.UnmaskedProcMount));
        container "e" (securityContext (Some "other"))];
     corev1.EphemeralContainers := [];
     corev1.podSecurityContext := None;
     corev1.HostUsers := hostUsers |}.

Definition procMountWorld (relax : bool) (hostUsers : option bool) : World :=
  {| relaxPolicyForUserNamespacePods := relax;
     podMetadata := {| metav1.Annotations := ∅ |};
     podSpec := procMountSpec hostUsers |}.

(** The same pod with container e left at the default: d, at index 3, is
    the only offender. *)
Definition onlyIndex3World : World :=
  {| relaxPolicyForUserNamespacePods := false;
     podMetadata := {| metav1.Annotations := ∅ |};
     podSpec :=
       {| corev1.InitContainers := [container "i" (securityContext None)];
          corev1.Containers :=
            [container "a" None;
             container "b" (securityContext None);
             container "c" (securityContext (Some corev1.DefaultProcMount));
             container "d" (securityContext (Some corev1.UnmaskedProcMount));
             container "e" (securityContext (Some corev1.DefaultProcMount))];
          corev1.EphemeralContainers := [];
          corev1.podSecurityContext := None;
          corev1.HostUsers := None |} |}.
End tests.

(** The detail the test table expects for offenders d and e. *)
Definition expectDetail_d_e : string :=
  "containers " +:+ dquote +:+ "d" +:+ dquote +:+ ", " +:+
  dquote +:+ "e" +:+ dquote +:+
  " must not set securityContext.procMount to " +:+
  dquote +:+ "Unmasked" +:+ dquote +:+ ", " +:+ dquote +:+ "other" +:+ dquote.

(** The one error the test table expects for container d. *)
Definition expectErr_index3 : field.Error :=
  {| field.Type_ := field.ErrorTypeForbidden;
     field.Field := "spec.containers[3].securityContext.procMount";
     field.BadValue := field.VString "Unmasked";
     field.Detail := "" |}.

(** A visitor that records the names of the containers it is shown. *)
Definition namesVisitor : ContainerVisitor (list string) :=
  fun container _ names => c <- load container ;; ret (names ++ [corev1.Name c]).

Module traversal.
(** A pod with two init containers, two containers and one ephemeral
    container, which sets the proc mount type Unmasked. *)
Definition world : World :=
  {| relaxPolicyForUserNamespacePods := false;
     podMetadata := {| metav1.Annotations := ∅ |};
     podSpec :=
       {| corev1.InitContainers :=
            [tests.container "i0" None; tests.container "i1" None];
          corev1.Containers :=
            [tests.container "c0" None; tests.container "c1" None];
          corev1.EphemeralContainers :=
            [{| corev1.EphemeralContainerCommon :=
                  tests.container "e0"
                    (tests.securityContext (Some corev1.UnmaskedProcMount));
                corev1.TargetContainerName := "c0" |}];
          corev1.podSecurityContext := None;
          corev1.HostUsers := None |} |}.

(** A visitor that records the pointer and whether the path function it
    receives is nil. *)
Definition recorder : ContainerVisitor (list (ContainerPtr * bool)) :=
  fun container pathFn calls =>
    ret (calls ++ [(container, bool_decide (is_Some pathFn))]).
End traversal.

Module annotated.
(** A pod whose metadata forbids two AppArmor profiles. *)
Definition annotations : gmap string string :=
  <["container.apparmor.security.beta.kubernetes.io/a" := "unconfined"]>
    (<["container.apparmor.security.beta.kubernetes.io/b" := "bogus"]>
       (<["unrelated" := "value"]> ∅)).

Definition world : World :=
  {| relaxPolicyForUserNamespacePods := false;
     podMetadata := {| metav1.Annotations := annotations |};
     podSpec := tests.procMountSpec None |}.

(** Two orders in which a [range] may yield the entries of a map. *)
Definition forward : MapOrder := map_to_list.
Definition backward : MapOrder := fun m => reverse (map_to_list m).
End annotated.

(** ** Where a container is *)

(** The field path of the container behind a pointer, as the structured
    errors spell it. *)
Definition ptrPath (ptr : ContainerPtr) : string :=
  match ptr with
  | InitContainerAt i =>
      "spec.initContainers[" +:+ strconv.Itoa (Z.of_nat i) +:+ "]"
  | ContainerAt i => "spec.containers[" +:+ strconv.Itoa (Z.of_nat i) +:+ "]"
  | EphemeralContainerAt i =>
      "spec.ephemeralContainers[" +:+ strconv.Itoa (Z.of_nat i) +:+ "]"
  end.

(** The containers of a pod spec with their pointers, in the order of the
    traversal. *)
Definition pointed (spec : corev1.PodSpec)
    : list (ContainerPtr * corev1.Container) :=
  imap (fun i c => (InitContainerAt i, c)) (corev1.InitContainers spec) ++
  imap (fun i c => (ContainerAt i, c)) (corev1.Containers spec) ++
  imap (fun i e => (EphemeralContainerAt i, corev1.EphemeralContainerCommon e))
       (corev1.EphemeralContainers spec).

(** A Forbidden error at a field, with the value found there. *)
Definition forbiddenAt (fld : string) (badValue : field.Value) : field.Error :=
  {| field.Type_ := field.ErrorTypeForbidden; field.Field := fld;
     field.BadValue := badValue; field.Detail := "" |}.

(** The rendering of names hung below a path: each preceded by a dot. *)
Fixpoint dotted (names : list string) : string :=
  match names with
  | [] => ""
  | n :: names' => "." +:+ n +:+ dotted names'
  end.

(** The labels a run of [Add] calls adds, and the errors it raises. *)
Definition labelsOf (calls : list (string * list ErrFn)) : list string :=
  calls.*1.

Definition raisedBy (calls : list (string * list ErrFn)) : list field.Error :=
  calls ≫= fun call => raised call.2.


(** ** Checks that record one label per offending container *)

(** The names of the containers that offend, and their pointers. *)
Definition namesWhere (offends : corev1.Container -> bool)
    (cs : list corev1.Container) : list string :=
  omap (fun c => if offends c then Some (corev1.Name c) else None) cs.

Definition ptrsWhere (offends : corev1.Container -> bool)
    (pcs : list (ContainerPtr * corev1.Container)) : list ContainerPtr :=
  omap (fun pc => if offends pc.2 then Some pc.1 else None) pcs.

(** What a call of a visitor does to the accumulator when it adds the name of
    an offending container, with the error functions [errFns] if field errors
    are on. *)
Definition labelStep (opts : options) (offends : corev1.Container -> bool)
    (errFns : PathFn -> corev1.Container -> list ErrFn)
    (bc : Violations) (v : Visit) : Violations :=
  if offends (visited v) then
    added bc (corev1.Name (visited v))
      (if withFieldErrors opts then errFns v.2 (visited v) else [])
  else bc.

(** The errors [labelStep] raises over a list of visits. *)
Definition labelErrFns (opts : options) (offends : corev1.Container -> bool)
    (errFns : PathFn -> corev1.Container -> list ErrFn) (vs : list Visit)
    : list ErrFn :=
  vs ≫= fun v =>
    if offends (visited v)
    then (if withFieldErrors opts then errFns v.2 (visited v) else [])
    else [].

(** *** privileged *)

Definition privilegedOffender (c : corev1.Container) : bool :=
  match corev1.SecurityContext_ c with
  | Some sc => match corev1.Privileged sc with
               | Some privileged => privileged
               | None => false
               end
  | None => false
  end.

Definition privilegedErrFn (pathFn : PathFn) : ErrFn :=
  withBadValue (forbidden (child pathFn "securityContext" ["privileged"]))
               (field.VBool true).

(** The result of the privileged check, read off the pod spec. *)
Definition privilegedExpected (opts : options) (spec : corev1.PodSpec)
    : CheckResult :=
  match namesWhere privilegedOffender (allContainers spec) with
  | [] => allowed
  | names =>
      {| Allowed := false;
         ForbiddenReason := "privileged";
         ForbiddenDetail :=
           pluralize "container" "containers" (length names) +:+ " " +:+
           joinQuote names +:+ " must not set securityContext.privileged=true";
         ErrList :=
           if withFieldErrors opts then
             Some ((fun ptr =>
                      forbiddenAt (ptrPath ptr +:+ ".securityContext.privileged")
                                  (field.VBool true))
                   <$> ptrsWhere privilegedOffender (pointed spec))
           else None |}
  end.

(** *** procMount *)

(** The result of the procMount check, read off the pod spec. *)
Definition procMountExpected (opts : options) (spec : corev1.PodSpec)
    : CheckResult :=
  match omap procMountOffender (allContainers spec) with
  | [] => allowed
  | offenders =>
      {| Allowed := false;
         ForbiddenReason := "procMount";
         ForbiddenDetail := procMountDetail offenders;
         ErrList :=
           if withFieldErrors opts then
             Some (omap (fun pc =>
                           (fun o => forbiddenAt
                                       (ptrPath pc.1 +:+ ".securityContext.procMount")
                                       (field.VString o.2))
                           <$> procMountOffender pc.2)
                        (pointed spec))
           else None |}
  end.

(** *** hostPorts *)

(** The ports of a list that set a host port, each with its index. *)
Definition badPortsIn (ports : list corev1.ContainerPort) : list (nat * Z) :=
  omap (fun ip => if negb (corev1.HostPort ip.2 =? 0)%Z
                  then Some (ip.1, corev1.HostPort ip.2) else None)
       (imap pair ports).

Definition badPorts (c : corev1.Container) : list (nat * Z) :=
  badPortsIn (corev1.Ports c).

Definition hostPortOffender (c : corev1.Container) : bool :=
  existsb (fun p => negb (corev1.HostPort p =? 0)%Z) (corev1.Ports c).

Definition hostPortErrFn (pathFn : PathFn) (jp : nat * Z) : ErrFn :=
  withBadValue
    (forbidden (child (index (child pathFn "ports" []) jp.1) "hostPort" []))
    (field.VInt jp.2).

Definition hostPortErrFns (pathFn : PathFn) (c : corev1.Container) : list ErrFn :=
  hostPortErrFn pathFn <$> badPorts c.

(** The host ports of a container in decimal, as they are inserted into the
    set of forbidden ports. *)
Definition hostPortStrings (c : corev1.Container) : list string :=
  (fun jp => strconv.Itoa jp.2) <$> badPorts c.

(** What one call of the visitor does to the variables it captures. *)
Definition hostPortsStep (opts : options) (s : Violations * gset string)
    (v : Visit) : Violations * gset string :=
  (labelStep opts hostPortOffender hostPortErrFns s.1 v,
   fold_left sets.Insert (hostPortStrings (visited v)) s.2).

(** The result of the hostPorts check, read off the pod spec. *)
Definition hostPortsExpected (opts : options) (spec : corev1.PodSpec)
    : CheckResult :=
  match namesWhere hostPortOffender (allContainers spec) with
  | [] => allowed
  | names =>
      let ports : gset string :=
        list_to_set (allContainers spec ≫= hostPortStrings) in
      {| Allowed := false;
         ForbiddenReason := "hostPort";
         ForbiddenDetail :=
           pluralize "container" "containers" (length names) +:+ " " +:+
           joinQuote names +:+ " " +:+
           pluralize "uses" "use" (length names) +:+ " " +:+
           pluralize "hostPort" "hostPorts" (sets.Len ports) +:+ " " +:+
           strings.Join (sets.List ports) ", ";
         ErrList :=
           if withFieldErrors opts then
             Some (pointed spec ≫= fun pc =>
                     (fun jp =>
                        forbiddenAt
                          (ptrPath pc.1 +:+ ".ports[" +:+
                           strconv.Itoa (Z.of_nat jp.1) +:+ "].hostPort")
                          (field.VInt jp.2))
                     <$> badPorts pc.2)
           else None |}
  end.

(** *** appArmorProfile *)

(** The annotations the appArmorProfile check forbids, in the order of the
    entries of the map. *)
Definition appArmorForbidden (annotations : gmap string string)
    : list (string * string) :=
  List.filter appArmorOffender (map_to_list annotations).

(** *** seLinuxOptions *)

(** The fields of SELinux options the check forbids, with the value found:
    a type outside the allowed ones, a user, a role, tested in this order. *)
Definition seLinuxBadFields (o : corev1.SELinuxOptions) : list (string * string) :=
  (if negb (sets.Has selinux_allowed_types_1_0 (corev1.Type_ o))
   then [("type", corev1.Type_ o)] else []) ++
  (if 0 <? String.length (corev1.User o) then [("user", corev1.User o)] else []) ++
  (if 0 <? String.length (corev1.Role o) then [("role", corev1.Role o)] else []).

Definition seLinuxValid (o : corev1.SELinuxOptions) : bool :=
  match seLinuxBadFields o with [] => true | _ => false end.

Definition seLinuxBadTypes (o : corev1.SELinuxOptions) : list string :=
  if negb (sets.Has selinux_allowed_types_1_0 (corev1.Type_ o))
  then [corev1.Type_ o] else [].

(** The SELinux options set at pod level and on a container. *)
Definition podLevelSELinuxOptions (spec : corev1.PodSpec)
    : option corev1.SELinuxOptions :=
  corev1.podSecurityContext spec ≫= corev1.podSELinuxOptions.

Definition containerSELinuxOptions (c : corev1.Container)
    : option corev1.SELinuxOptions :=
  corev1.SecurityContext_ c ≫= corev1.SELinuxOptions_.

Definition seLinuxOffender (c : corev1.Container) : bool :=
  match containerSELinuxOptions c with
  | Some o => negb (seLinuxValid o)
  | None => false
  end.

Definition containerBadFields (c : corev1.Container) : list (string * string) :=
  from_option seLinuxBadFields [] (containerSELinuxOptions c).

(** The deferred errors [validSELinuxOptions] records for a container and
    at pod level. *)
Definition seLinuxContainerErrFns (pathFn : PathFn)
    (flds : list (string * string)) : list ErrFn :=
  match pathFn with
  | Some _ =>
      (fun fv => withBadValue
                   (forbidden (child pathFn "securityContext"
                                     ["seLinuxOptions"; fv.1]))
                   (field.VString fv.2)) <$> flds
  | None => []
  end.

Definition seLinuxPodErrFns (opts : options) (pathFn : PathFn)
    (isPodLevel : bool) (flds : list (string * string)) : list ErrFn :=
  match pathFn with
  | Some _ => []
  | None =>
      if isPodLevel && withFieldErrors opts then
        (fun fv => withBadValue
                     (forbidden (child securityContextPath "seLinuxOptions" [fv.1]))
                     (field.VString fv.2)) <$> flds
      else []
  end.

(** What a call of [validSELinuxOptions] assigns to the captured variables. *)
Definition seLinuxRecord (opts : options) (o : corev1.SELinuxOptions)
    (pathFn : PathFn) (isPodLevel : bool) (vars : seLinuxVars) : seLinuxVars :=
  mkSeLinuxVars
    (badContainersErrFns vars ++ seLinuxContainerErrFns pathFn (seLinuxBadFields o))
    (badPodErrFns vars ++
       seLinuxPodErrFns opts pathFn isPodLevel (seLinuxBadFields o))
    (fold_left sets.Insert (seLinuxBadTypes o) (badTypes vars))
    (setUser vars || (0 <? String.length (corev1.User o)))
    (setRole vars || (0 <? String.length (corev1.Role o))).

(** What one call of the visitor does to the variables it captures. *)
Definition seLinuxStep (opts : options) (s : seLinuxVars * list string)
    (v : Visit) : seLinuxVars * list string :=
  match containerSELinuxOptions (visited v) with
  | Some o =>
      (seLinuxRecord opts o v.2 false s.1,
       if seLinuxValid o then s.2 else s.2 ++ [corev1.Name (visited v)])
  | None => s
  end.

(** All SELinux options of a pod, the pod-level ones first. *)
Definition allSELinuxOptions (spec : corev1.PodSpec)
    : list corev1.SELinuxOptions :=
  option_list (podLevelSELinuxOptions spec) ++
  omap containerSELinuxOptions (allContainers spec).

(** The result of the seLinuxOptions check, read off the pod spec. *)
Definition seLinuxExpected (opts : options) (spec : corev1.PodSpec)
    : CheckResult :=
  let podBad := from_option seLinuxBadFields [] (podLevelSELinuxOptions spec) in
  let names := namesWhere seLinuxOffender (allContainers spec) in
  let setters :=
    (match podBad with [] => [] | _ => ["pod"] end) ++
    (match names with
     | [] => []
     | _ => [pluralize "container" "containers" (length names) +:+ " " +:+
             joinQuote names]
     end) in
  let types : gset string :=
    list_to_set (allSELinuxOptions spec ≫= seLinuxBadTypes) in
  let badData :=
    (if 0 <? sets.Len types
     then [pluralize "type" "types" (sets.Len types) +:+ " " +:+
           joinQuote (sets.List types)]
     else []) ++
    (if existsb (fun o => 0 <? String.length (corev1.User o))
                (allSELinuxOptions spec)
     then ["user may not be set"] else []) ++
    (if existsb (fun o => 0 <? String.length (corev1.Role o))
                (allSELinuxOptions spec)
     then ["role may not be set"] else []) in
  match setters with
  | [] => allowed
  | _ =>
      {| Allowed := false;
         ForbiddenReason := "seLinuxOptions";
         ForbiddenDetail :=
           strings.Join setters " and " +:+
           " set forbidden securityContext.seLinuxOptions: " +:+
           strings.Join badData "; ";
         ErrList :=
           if withFieldErrors opts then
             Some (((fun fv =>
                       forbiddenAt
                         ("spec.securityContext.seLinuxOptions." +:+ fv.1)
                         (field.VString fv.2)) <$> podBad) ++
                   (pointed spec ≫= fun pc =>
                      (fun fv =>
                         forbiddenAt
                           (ptrPath pc.1 +:+
                            ".securityContext.seLinuxOptions." +:+ fv.1)
                           (field.VString fv.2))
                      <$> containerBadFields pc.2))
           else None |}
  end.

(** *** Across the checks *)

(** Two results that agree on everything but the error list. *)
Definition sameVerdict (r1 r2 : CheckResult) : Prop :=
  Allowed r1 = Allowed r2 /\
  ForbiddenReason r1 = ForbiddenReason r2 /\
  ForbiddenDetail r1 = ForbiddenDetail r2.

(** Whatever the options of two calls of a check on the same pod, both
    return and agree on everything but the error list. *)
Definition verdictIgnoresFieldErrors (check : options -> M CheckResult)
    (w : World) : Prop :=
  forall opts1 opts2, exists r1 r2,
    check opts1 w = Returns r1 w /\ check opts2 w = Returns r2 w /\
    sameVerdict r1 r2.

(** A result that, when it forbids, carries at least one field error. *)
Definition explained (r : CheckResult) : Prop :=
  Allowed r = false -> exists e errs, ErrList r = Some (e :: errs).

(** * Reasoning about evaluations *)

Section Rules.
Context {A B : Type}.
Implicit Types (w : World).

Lemma returns_ret (a : A) w (Q : A -> Prop) : Q a -> returns (ret a) w Q.
Proof. intros HQ. exists a. split; [reflexivity | exact HQ]. Qed.

Lemma returns_bind (m : M A) (k : A -> M B) w (P : A -> Prop) (Q : B -> Prop) :
  returns m w P ->
  (forall a, P a -> returns (k a) w Q) ->
  returns (x <- m ;; k x) w Q.
Proof.
  intros (a & Hm & HP) Hk.
  destruct (Hk a HP) as (b & Hb & HQ).
  exists b. split; [| exact HQ].
  unfold bind. rewrite Hm. exact Hb.
Qed.

Lemma returns_mono (m : M A) w (P Q : A -> Prop) :
  returns m w P -> (forall a, P a -> Q a) -> returns m w Q.
Proof. intros (a & Hm & HP) HPQ. exists a. auto. Qed.

Lemma returns_eq (m : M A) w (a : A) (Q : A -> Prop) :
  m w = Returns a w -> Q a -> returns m w Q.
Proof. intros Hm HQ. exists a. auto. Qed.
End Rules.

Lemma returns_getPodSpec w (Q : corev1.PodSpec -> Prop) :
  Q (podSpec w) -> returns getPodSpec w Q.
Proof. intros HQ. exists (podSpec w). auto. Qed.

Lemma returns_getPodMetadata w (Q : metav1.ObjectMeta -> Prop) :
  Q (podMetadata w) -> returns getPodMetadata w Q.
Proof. intros HQ. exists (podMetadata w). auto. Qed.

Lemma returns_addrOf ptr c w (Q : ContainerPtr -> Prop) :
  deref (podSpec w) ptr = Some c -> Q ptr -> returns (addrOf ptr) w Q.
Proof. intros Hd HQ. exists ptr. unfold addrOf. rewrite Hd. auto. Qed.

Lemma returns_load ptr c w (Q : corev1.Container -> Prop) :
  deref (podSpec w) ptr = Some c -> Q c -> returns (load ptr) w Q.
Proof. intros Hd HQ. exists c. unfold load. rewrite Hd. auto. Qed.

(** The same rules for a read followed by the rest of the body. *)
Lemma returns_bind_eq {A B} (m : M A) (k : A -> M B) w (a : A) (Q : B -> Prop) :
  m w = Returns a w -> returns (k a) w Q -> returns (x <- m ;; k x) w Q.
Proof.
  intros Hm Hk. apply returns_bind with (P := fun x => x = a).
  - exists a. auto.
  - intros ? ->. exact Hk.
Qed.

Lemma returns_then_getPodSpec {B} (k : corev1.PodSpec -> M B) w (Q : B -> Prop) :
  returns (k (podSpec w)) w Q -> returns (spec <- getPodSpec ;; k spec) w Q.
Proof. apply returns_bind_eq. reflexivity. Qed.

Lemma returns_then_getPodMetadata {B} (k : metav1.ObjectMeta -> M B) w
    (Q : B -> Prop) :
  returns (k (podMetadata w)) w Q -> returns (meta <- getPodMetadata ;; k meta) w Q.
Proof. apply returns_bind_eq. reflexivity. Qed.

Lemma returns_then_addrOf {B} ptr c (k : ContainerPtr -> M B) w (Q : B -> Prop) :
  deref (podSpec w) ptr = Some c ->
  returns (k ptr) w Q -> returns (p <- addrOf ptr ;; k p) w Q.
Proof. intros Hd. apply returns_bind_eq. unfold addrOf. rewrite Hd. reflexivity. Qed.

Lemma returns_then_load {B} ptr c (k : corev1.Container -> M B) w (Q : B -> Prop) :
  deref (podSpec w) ptr = Some c ->
  returns (k c) w Q -> returns (x <- load ptr ;; k x) w Q.
Proof. intros Hd. apply returns_bind_eq. unfold load. rewrite Hd. reflexivity. Qed.

(** The loop rule: [Inv pre s] relates the variables to the elements [pre]
    already iterated over. *)
Lemma returns_rangeFrom {A St} (xs : list A) (body : nat -> A -> St -> M St)
    w (Inv : list A -> St -> Prop) i0 s :
  Inv [] s ->
  (forall pre x post s,
      xs = pre ++ x :: post -> Inv pre s ->
      returns (body (i0 + length pre) x s) w (Inv (pre ++ [x]))) ->
  returns (rangeFrom i0 xs body s) w (Inv xs).
Proof.
  revert Inv i0 s. induction xs as [| x xs IH]; intros Inv i0 s H0 Hstep.
  - apply returns_ret. exact H0.
  - cbn [rangeFrom]. eapply returns_bind.
    + specialize (Hstep [] x xs s eq_refl H0).
      rewrite Nat.add_0_r in Hstep. exact Hstep.
    + intros s' Hs'. cbn in Hs'.
      apply (IH (fun pre => Inv (x :: pre)) (S i0) s' Hs').
      intros pre y post s2 -> Hpre.
      specialize (Hstep (x :: pre) y post s2 eq_refl Hpre).
      cbn [length] in Hstep. rewrite Nat.add_succ_r in Hstep. exact Hstep.
Qed.

Lemma returns_range {A St} (xs : list A) (body : nat -> A -> St -> M St)
    w (Inv : list A -> St -> Prop) s :
  Inv [] s ->
  (forall pre x post s,
      xs = pre ++ x :: post -> Inv pre s ->
      returns (body (length pre) x s) w (Inv (pre ++ [x]))) ->
  returns (range xs body s) w (Inv xs).
Proof. intros H0 Hstep. apply returns_rangeFrom; [exact H0 | exact Hstep]. Qed.

Lemma returns_leavesPodIntact {A} (m : M A) w (Q : A -> Prop) :
  returns m w Q -> leavesPodIntact m w.
Proof. intros (a & Hm & _). exists a, w. auto. Qed.

Lemma returns_deterministic {A} (m : M A) w (Q : A -> Prop) :
  returns m w Q -> deterministic m w.
Proof.
  intros (a & Hm & _). exists a. split; [exact Hm |].
  intros a' w' Hm'. congruence.
Qed.

(** ** The accumulator *)

Lemma raised_cons errFn errFns :
  raised (errFn :: errFns) =
  match invoke errFn with
  | Some err => err :: raised errFns
  | None => raised errFns
  end.
Proof. reflexivity. Qed.

Lemma consistent_NewViolations b : consistent (NewViolations b).
Proof. destruct b; cbn; eauto. Qed.

Lemma consistent_added v d errFns : consistent v -> consistent (added v d errFns).
Proof.
  unfold consistent, added. cbn. destruct (v_withFieldErrors v); [| auto].
  intros [l ->]. cbn. eauto.
Qed.

Lemma Add_added v d errFns w :
  consistent v -> Add v d errFns w = Returns (added v d errFns) w.
Proof.
  intros Hc. unfold Add, added. unfold consistent in Hc. cbn [v_withFieldErrors].
  destruct v as [dat er wfe]. cbn in *. destruct wfe; [| reflexivity].
  destruct Hc as [l ->]. cbn. unfold range.
  assert (Hloop : forall fns i l0,
    rangeFrom i fns
      (fun (_ : nat) (errFn : ErrFn) (v : Violations) =>
         match errFn with
         | Some errFn0 => match errFn0 tt with
                          | Some err => appendErr v err
                          | None => ret v
                          end
         | None => ret v
         end) (mkViolations (dat ++ [d]) (Some l0) true) w
    = Returns (mkViolations (dat ++ [d]) (Some (l0 ++ raised fns)) true) w).
  { induction fns as [| fn fns IH]; intros i l0.
    - cbn. rewrite app_nil_r. reflexivity.
    - cbn [rangeFrom]. unfold bind. rewrite raised_cons.
      destruct fn as [f |]; cbn [invoke];
        [destruct (f tt) as [err |] |]; cbn [appendErr errs ret];
        rewrite IH; [| reflexivity | reflexivity].
      rewrite <- app_assoc. reflexivity. }
  apply Hloop.
Qed.

Lemma returns_Add v d errFns w (Q : Violations -> Prop) :
  consistent v -> Q (added v d errFns) -> returns (Add v d errFns) w Q.
Proof. intros Hc HQ. eapply returns_eq; [apply Add_added, Hc | exact HQ]. Qed.

Lemma returns_then_Add {B} v d errFns (k : Violations -> M B) w (Q : B -> Prop) :
  consistent v ->
  returns (k (added v d errFns)) w Q ->
  returns (v' <- Add v d errFns ;; k v') w Q.
Proof. intros Hc. apply returns_bind_eq, Add_added, Hc. Qed.

Lemma returns_addAll calls w :
  returns (addAll calls (NewViolations false)) w (fun v => Errs v = None).
Proof.
  unfold addAll.
  apply returns_mono
    with (P := fun v => v_withFieldErrors v = false /\ errs v = None);
    [| intros v [_ Hnil]; exact Hnil].
  apply (returns_range _ _ w
           (fun _ v => v_withFieldErrors v = false /\ errs v = None)).
  - split; reflexivity.
  - intros pre [d errFns] post v _ [Hoff Hnil]. apply returns_Add.
    + unfold consistent. rewrite Hoff. exact Hnil.
    + unfold added. cbn. rewrite Hoff. auto.
Qed.

(** ** The traversal *)

Lemma imap_snoc {A B} (f : nat -> A -> B) (l : list A) (x : A) :
  imap f (l ++ [x]) = imap f l ++ [f (length l) x].
Proof. rewrite imap_app. cbn. rewrite Nat.add_0_r. reflexivity. Qed.

(** The proof rule of the traversal: an invariant over the visits made so
    far, kept by each call of the visitor on a container of the pod. *)
Lemma returns_visitContainers {St} (opts : options) (visitor : ContainerVisitor St)
    w (Inv : list Visit -> St -> Prop) s :
  Inv [] s ->
  (forall pre ptr c pathFn s,
      deref (podSpec w) ptr = Some c -> Inv pre s ->
      returns (visitor ptr pathFn s) w (Inv (pre ++ [(ptr, c, pathFn)]))) ->
  returns (visitContainers opts visitor s) w (Inv (visits opts (podSpec w))).
Proof.
  intros H0 Hstep. unfold visitContainers, visits.
  set (f1 := fun i c => (InitContainerAt i, c, pathFnAt opts initContainersFldPath i)).
  set (f2 := fun i c => (ContainerAt i, c, pathFnAt opts containersFldPath i)).
  set (f3 := fun i e => (EphemeralContainerAt i, corev1.EphemeralContainerCommon e,
                         pathFnAt opts ephemeralContainersFldPath i)).
  apply returns_then_getPodSpec. eapply returns_bind.
  { apply (returns_range _ _ w (fun pre => Inv (imap f1 pre))); [exact H0 |].
    intros pre x post s1 Hxs Hpre. rewrite imap_snoc.
    assert (Hd : deref (podSpec w) (InitContainerAt (length pre)) = Some x).
    { cbn. rewrite Hxs. apply list_lookup_middle. reflexivity. }
    apply (returns_then_addrOf _ x); [exact Hd |].
    apply Hstep; [exact Hd | exact Hpre]. }
  cbn beta. intros s1 Hs1.
  apply returns_then_getPodSpec. eapply returns_bind.
  { apply (returns_range _ _ w
             (fun pre => Inv (imap f1 (corev1.InitContainers (podSpec w)) ++ imap f2 pre)));
      [rewrite app_nil_r; exact Hs1 |].
    intros pre x post s2 Hxs Hpre. rewrite imap_snoc, app_assoc.
    assert (Hd : deref (podSpec w) (ContainerAt (length pre)) = Some x).
    { cbn. rewrite Hxs. apply list_lookup_middle. reflexivity. }
    apply (returns_then_addrOf _ x); [exact Hd |].
    apply Hstep; [exact Hd | exact Hpre]. }
  cbn beta. intros s2 Hs2.
  apply returns_then_getPodSpec.
  apply (returns_range _ _ w
           (fun pre => Inv (imap f1 (corev1.InitContainers (podSpec w)) ++
                            imap f2 (corev1.Containers (podSpec w)) ++ imap f3 pre)));
    [rewrite app_nil_r; exact Hs2 |].
  intros pre x post s3 Hxs Hpre. rewrite imap_snoc, !app_assoc.
  assert (Hd : deref (podSpec w) (EphemeralContainerAt (length pre))
               = Some (corev1.EphemeralContainerCommon x)).
  { cbn. rewrite Hxs, list_lookup_middle by reflexivity. reflexivity. }
  apply (returns_then_addrOf _ (corev1.EphemeralContainerCommon x)); [exact Hd |].
  apply Hstep; [exact Hd |]. rewrite <- app_assoc. exact Hpre.
Qed.

Section VisitEach.
Context {St : Type} (opts : options) (visitor : ContainerVisitor St).
Hypothesis Hkeeps : keepsPodSpec visitor.

Lemma visitEach_app vs1 vs2 s w :
  visitEach visitor (vs1 ++ vs2) s w =
  (s' <- visitEach visitor vs1 s ;; visitEach visitor vs2 s') w.
Proof.
  revert s w. induction vs1 as [| [[ptr c] pathFn] vs1 IH]; intros s w.
  - reflexivity.
  - cbn [app visitEach]. unfold bind.
    destruct (visitor ptr pathFn s w) as [s' w' |]; [| reflexivity].
    rewrite IH. reflexivity.
Qed.

Lemma visitEach_keeps vs s w s' w' :
  visitEach visitor vs s w = Returns s' w' -> podSpec w' = podSpec w.
Proof.
  revert s w. induction vs as [| [[ptr c] pathFn] vs IH]; intros s w.
  - cbn. intros [= _ ->]. reflexivity.
  - cbn [visitEach]. unfold bind.
    destruct (visitor ptr pathFn s w) as [s1 w1 |] eqn:Hv; [| discriminate].
    intros Hrest. rewrite (IH _ _ Hrest). exact (Hkeeps _ _ _ _ _ _ Hv).
Qed.

Lemma rangeFrom_visitEach {X} (at_ : nat -> ContainerPtr)
    (get : X -> corev1.Container) (base : PathFn) (xs : list X) i s w :
  (forall j x, xs !! j = Some x -> deref (podSpec w) (at_ (j + i)) = Some (get x)) ->
  rangeFrom i xs (visitAt opts visitor at_ base) s w =
  visitEach visitor
    (imap (fun j x => (at_ (j + i), get x, pathFnAt opts base (j + i))) xs) s w.
Proof.
  revert i s w. induction xs as [| x xs IH]; intros i s w Hd; [reflexivity |].
  cbn [rangeFrom imap visitEach]. unfold visitAt at 1. unfold bind, addrOf.
  rewrite (Hd 0 x eq_refl : deref (podSpec w) (at_ i) = Some (get x)).
  cbn [Nat.add].
  destruct (visitor (at_ i) (pathFnAt opts base i) s w) as [s' w' |] eqn:Hv;
    [| reflexivity].
  rewrite IH.
  - f_equal. apply imap_ext. intros j y _. cbn. rewrite Nat.add_succ_r.
    reflexivity.
  - intros j y Hj. rewrite (Hkeeps _ _ _ _ _ _ Hv), Nat.add_succ_r.
    exact (Hd (S j) y Hj).
Qed.

Lemma range_visitEach {X} (at_ : nat -> ContainerPtr)
    (get : X -> corev1.Container) (base : PathFn) (xs : list X) s w :
  (forall j x, xs !! j = Some x -> deref (podSpec w) (at_ j) = Some (get x)) ->
  range xs (visitAt opts visitor at_ base) s w =
  visitEach visitor
    (imap (fun j x => (at_ j, get x, pathFnAt opts base j)) xs) s w.
Proof.
  intros Hd. unfold range. rewrite (rangeFrom_visitEach at_ get).
  - f_equal. apply imap_ext. intros j x _. cbn. rewrite Nat.add_0_r. reflexivity.
  - intros j x Hj. rewrite Nat.add_0_r. auto.
Qed.

(** The traversal is the sequence of calls [visits] lists. *)
Lemma visitContainers_visitEach s w :
  visitContainers opts visitor s w =
  visitEach visitor (visits opts (podSpec w)) s w.
Proof.
  unfold visits. rewrite visitEach_app.
  change (visitContainers opts visitor s w) with
    ((spec <- getPodSpec ;;
      s <- range (corev1.InitContainers spec)
             (visitAt opts visitor InitContainerAt initContainersFldPath) s ;;
      spec <- getPodSpec ;;
      s <- range (corev1.Containers spec)
             (visitAt opts visitor ContainerAt containersFldPath) s ;;
      spec <- getPodSpec ;;
      range (corev1.EphemeralContainers spec)
        (visitAt opts visitor EphemeralContainerAt ephemeralContainersFldPath) s) w).
  unfold bind, getPodSpec.
  rewrite (range_visitEach InitContainerAt (fun c => c)) by auto.
  destruct (visitEach visitor _ s w) as [s1 w1 |] eqn:H1; [| reflexivity].
  pose proof (visitEach_keeps _ _ _ _ _ H1) as E1. rewrite E1.
  rewrite visitEach_app. unfold bind.
  rewrite (range_visitEach ContainerAt (fun c => c))
    by (intros j x Hj; cbn; rewrite E1; exact Hj).
  destruct (visitEach visitor _ s1 w1) as [s2 w2 |] eqn:H2; [| reflexivity].
  pose proof (visitEach_keeps _ _ _ _ _ H2) as E2. rewrite E1 in E2. rewrite E2.
  apply (range_visitEach EphemeralContainerAt corev1.EphemeralContainerCommon).
  intros j x Hj. cbn. rewrite E2, Hj. reflexivity.
Qed.
End VisitEach.

(** ** The sequence of visits *)

Lemma visited_imap {X} (at_ : nat -> ContainerPtr) (get : X -> corev1.Container)
    (pathFn : nat -> PathFn) (xs : list X) :
  visited <$> imap (fun i x => (at_ i, get x, pathFn i)) xs = get <$> xs.
Proof.
  rewrite fmap_imap. rewrite <- (imap_const get xs).
  apply imap_ext. reflexivity.
Qed.

Lemma visits_containers opts spec :
  visited <$> visits opts spec = allContainers spec.
Proof.
  unfold visits, allContainers. rewrite !fmap_app.
  rewrite (visited_imap InitContainerAt (fun c => c)).
  rewrite (visited_imap ContainerAt (fun c => c)).
  rewrite (visited_imap EphemeralContainerAt corev1.EphemeralContainerCommon).
  rewrite !list_fmap_id. reflexivity.
Qed.

Lemma pointer_imap {X} (at_ : nat -> ContainerPtr) (get : X -> corev1.Container)
    (pathFn : nat -> PathFn) (xs : list X) :
  pointer <$> imap (fun i x => (at_ i, get x, pathFn i)) xs =
  at_ <$> seq 0 (length xs).
Proof.
  rewrite fmap_imap. rewrite <- imap_seq_0. apply imap_ext. reflexivity.
Qed.

(** The pointers handed to the visitor: every index of the init containers,
    then of the containers, then of the ephemeral containers. *)
Lemma visits_pointers opts spec :
  pointer <$> visits opts spec =
  (InitContainerAt <$> seq 0 (length (corev1.InitContainers spec))) ++
  (ContainerAt <$> seq 0 (length (corev1.Containers spec))) ++
  (EphemeralContainerAt <$> seq 0 (length (corev1.EphemeralContainers spec))).
Proof.
  unfold visits. rewrite !fmap_app.
  rewrite (pointer_imap InitContainerAt), (pointer_imap ContainerAt),
    (pointer_imap EphemeralContainerAt).
  reflexivity.
Qed.

Lemma visits_NoDup opts spec : NoDup (pointer <$> visits opts spec).
Proof.
  rewrite visits_pointers.
  assert (Hi : Inj (=) (=) InitContainerAt) by (intros ? ? [= ->]; reflexivity).
  assert (Hc : Inj (=) (=) ContainerAt) by (intros ? ? [= ->]; reflexivity).
  assert (He : Inj (=) (=) EphemeralContainerAt) by (intros ? ? [= ->]; reflexivity).
  rewrite !NoDup_app. repeat split.
  - apply NoDup_fmap_2; [exact Hi | apply NoDup_seq].
  - intros ptr [i [-> _]]%list_elem_of_fmap.
    rewrite elem_of_app, !list_elem_of_fmap. intros [[j [? _]] | [j [? _]]]; discriminate.
  - apply NoDup_fmap_2; [exact Hc | apply NoDup_seq].
  - intros ptr [i [-> _]]%list_elem_of_fmap.
    rewrite list_elem_of_fmap. intros [j [? _]]. discriminate.
  - apply NoDup_fmap_2; [exact He | apply NoDup_seq].
Qed.

(** Each pointer handed to the visitor points to the container visited. *)
Lemma visits_deref opts spec v :
  v ∈ visits opts spec -> deref spec (pointer v) = Some (visited v).
Proof.
  unfold visits. rewrite !elem_of_app, !elem_of_lookup_imap.
  intros [(i & x & -> & Hx) | [(i & x & -> & Hx) | (i & x & -> & Hx)]]; cbn;
    rewrite Hx; reflexivity.
Qed.

Lemma visits_container opts spec i c :
  corev1.Containers spec !! i = Some c ->
  (ContainerAt i, c, pathFnAt opts containersFldPath i) ∈ visits opts spec.
Proof.
  intros Hc. unfold visits. rewrite !elem_of_app. right. left.
  apply (elem_of_lookup_imap_2
           (fun i c => (ContainerAt i, c, pathFnAt opts containersFldPath i))).
  exact Hc.
Qed.

(** With field errors off every path function handed over is nil. *)
Lemma visits_nil_pathFn opts spec v :
  withFieldErrors opts = false -> v ∈ visits opts spec -> v.2 = None.
Proof.
  intros Hoff. unfold visits, pathFnAt. rewrite Hoff.
  rewrite !elem_of_app, !elem_of_lookup_imap.
  intros [(i & x & -> & _) | [(i & x & -> & _) | (i & x & -> & _)]]; reflexivity.
Qed.

(** A list in which only the element with the key of [x0] contributes. *)
Lemma bind_only {X K Y} (key_ : X -> K) (f : X -> list Y) (l : list X) (x0 : X) :
  NoDup (key_ <$> l) ->
  x0 ∈ l ->
  (forall x, x ∈ l -> key_ x ≠ key_ x0 -> f x = []) ->
  l ≫= f = f x0.
Proof.
  induction l as [| x l IH]; intros Hnd Hin Hrest.
  - apply elem_of_nil in Hin. destruct Hin.
  - rewrite fmap_cons, NoDup_cons in Hnd. destruct Hnd as [Hx Hnd].
    cbn [mbind list_bind]. apply elem_of_cons in Hin as [<- | Hin].
    + assert (Hnil : l ≫= f = []).
      { clear IH Hnd. induction l as [| y l IHl]; [reflexivity |].
        cbn [mbind list_bind]. rewrite IHl.
        - rewrite (Hrest y); [reflexivity | |].
          + apply elem_of_cons. right. apply elem_of_cons. left. reflexivity.
          + intros Heq. apply Hx. rewrite <- Heq. apply elem_of_cons. left.
            reflexivity.
        - intros Hin. apply Hx. cbn. apply elem_of_cons. right. exact Hin.
        - intros z Hz. apply Hrest. apply elem_of_cons in Hz as [-> | Hz].
          + apply elem_of_cons. left. reflexivity.
          + apply elem_of_cons. right. apply elem_of_cons. right. exact Hz. }
      change (f x0 ++ (l ≫= f) = f x0). rewrite Hnil. apply app_nil_r.
    + change (f x ++ (l ≫= f) = f x0). rewrite IH; [| exact Hnd | exact Hin |].
      * rewrite (Hrest x); [reflexivity | apply elem_of_cons; left; reflexivity |].
        intros Heq. apply Hx. rewrite Heq. apply list_elem_of_fmap. eauto.
      * intros z Hz. apply Hrest. apply elem_of_cons. right. exact Hz.
Qed.

(** ** procMount *)

Lemma returns_procMountVisitor opts ptr c pathFn s w
    (Q : Violations * gset string -> Prop) :
  deref (podSpec w) ptr = Some c ->
  consistent s.1 ->
  Q (procMountStep opts s (ptr, c, pathFn)) ->
  returns (procMountVisitor opts ptr pathFn s) w Q.
Proof.
  destruct s as [bc types]. unfold procMountVisitor, procMountStep.
  unfold procMountOffender. cbn [fst snd]. intros Hd Hc HQ.
  apply (returns_then_load _ c); [exact Hd |].
  destruct (corev1.SecurityContext_ c) as [sc |]; cbn in HQ |- *;
    [| apply returns_ret; exact HQ].
  destruct (corev1.ProcMount sc) as [pm |]; cbn in HQ |- *;
    [| apply returns_ret; exact HQ].
  destruct (String.eqb pm corev1.DefaultProcMount); cbn in HQ |- *;
    [apply returns_ret; exact HQ |].
  destruct (withFieldErrors opts);
    (apply returns_then_Add; [exact Hc | apply returns_ret; exact HQ]).
Qed.

Lemma procMountStep_consistent opts vs s :
  consistent s.1 -> consistent (fold_left (procMountStep opts) vs s).1.
Proof.
  revert s. induction vs as [| [[ptr c] pathFn] vs IH]; intros s Hc; [exact Hc |].
  cbn [fold_left]. apply IH. unfold procMountStep.
  destruct (procMountOffender c) as [[name pm] |]; [| exact Hc].
  cbn. apply consistent_added. exact Hc.
Qed.

Lemma returns_procMountV1Dot0 opts w (Q : CheckResult -> Prop) :
  Q (procMountOf opts (visits opts (podSpec w))) ->
  returns (procMountV1Dot0 opts) w Q.
Proof.
  intros HQ. unfold procMountV1Dot0.
  set (s0 := (NewViolations (withFieldErrors opts), sets.NewString [])).
  eapply returns_bind.
  - apply (returns_visitContainers opts _ w
             (fun pre s => s = fold_left (procMountStep opts) pre s0)).
    + reflexivity.
    + intros pre ptr c pathFn s Hd ->.
      apply (returns_procMountVisitor _ _ c); [exact Hd | |].
      * apply procMountStep_consistent, consistent_NewViolations.
      * rewrite fold_left_app. reflexivity.
  - cbn beta. intros s ->. apply returns_ret. exact HQ.
Qed.

Lemma omap_cons {X Y} (f : X -> option Y) (x : X) (l : list X) :
  omap f (x :: l) = match f x with Some y => y :: omap f l | None => omap f l end.
Proof. reflexivity. Qed.

Lemma raised_app errFns1 errFns2 :
  raised (errFns1 ++ errFns2) = raised errFns1 ++ raised errFns2.
Proof. apply omap_app. Qed.

Lemma procMountStep_fold opts vs d e b types :
  fold_left (procMountStep opts) vs (mkViolations d e b, types) =
  (mkViolations (d ++ (procMountOffenders vs).*1)
     (if b then (fun l => l ++ raised (procMountErrFns opts vs)) <$> e else e) b,
   fold_left sets.Insert (procMountOffenders vs).*2 types).
Proof.
  revert d e types. induction vs as [| [[ptr c] pathFn] vs IH]; intros d e types.
  - cbn. rewrite app_nil_r. destruct b, e; cbn; rewrite ?app_nil_r; reflexivity.
  - cbn [fold_left procMountStep]. unfold procMountOffenders, procMountErrFns.
    cbn [omap list_omap mbind list_bind visited fst snd].
    destruct (procMountOffender c) as [[name pm] |]; [| apply IH].
    unfold added. cbn [data errs v_withFieldErrors fst snd].
    rewrite IH. cbn [fmap list_fmap fst snd fold_left].
    rewrite raised_app, <- app_assoc. f_equal. f_equal.
    destruct b; [| reflexivity]. destruct e as [l |]; [| reflexivity].
    cbn. rewrite <- app_assoc. reflexivity.
Qed.

Lemma procMountOffenders_containers opts spec :
  procMountOffenders (visits opts spec) =
  omap procMountOffender (allContainers spec).
Proof.
  rewrite <- (visits_containers opts). unfold procMountOffenders.
  induction (visits opts spec) as [| v vs IH]; [reflexivity |].
  cbn. rewrite IH. reflexivity.
Qed.

(** The check in terms of the offenders of the pod. *)
Lemma procMountOf_visits opts spec :
  procMountOf opts (visits opts spec) =
  let offenders := omap procMountOffender (allContainers spec) in
  procMountResult
    (mkViolations offenders.*1
       (if withFieldErrors opts
        then Some (raised (procMountErrFns opts (visits opts spec))) else None)
       (withFieldErrors opts),
     fold_left sets.Insert offenders.*2 (sets.NewString [])).
Proof.
  unfold procMountOf, NewViolations.
  destruct (withFieldErrors opts); cbn [data errs v_withFieldErrors];
    rewrite procMountStep_fold, procMountOffenders_containers; reflexivity.
Qed.

Lemma fold_Insert (items : list string) (s : gset string) :
  fold_left sets.Insert items s = s ∪ list_to_set items.
Proof.
  revert s. induction items as [| item items IH]; intros s; cbn.
  - rewrite (right_id_L ∅ (∪)). reflexivity.
  - rewrite IH. unfold sets.Insert. rewrite (assoc_L (∪)). reflexivity.
Qed.

Lemma procMountOf_forbidden opts spec :
  omap procMountOffender (allContainers spec) ≠ [] ->
  let r := procMountOf opts (visits opts spec) in
  Allowed r = false /\ ForbiddenReason r = "procMount" /\
  ForbiddenDetail r = procMountDetail (omap procMountOffender (allContainers spec)).
Proof.
  intros Hne. cbn zeta. rewrite procMountOf_visits. cbn zeta.
  destruct (omap procMountOffender (allContainers spec)) as [| o offs] eqn:Hoffs;
    [congruence |].
  unfold procMountResult, procMountDetail, Empty, Len, Data. cbn [data negb].
  rewrite fold_Insert. unfold sets.NewString. cbn [list_to_set].
  rewrite (left_id_L ∅ (∪)), length_fmap. cbn. auto.
Qed.

Lemma RelaxPolicyForUserNamespacePods_toggled relax w :
  RelaxPolicyForUserNamespacePods relax w = Returns tt (toggled relax w).
Proof. reflexivity. Qed.

(** ** Results that are well formed *)

Lemma tracks_NewViolations opts : tracks opts (NewViolations (withFieldErrors opts)).
Proof.
  split; [apply consistent_NewViolations |].
  unfold NewViolations. destruct (withFieldErrors opts); reflexivity.
Qed.

Lemma tracks_added opts v d errFns : tracks opts v -> tracks opts (added v d errFns).
Proof. intros [Hc Hf]. split; [apply consistent_added, Hc | exact Hf]. Qed.

Lemma tracks_off opts v :
  tracks opts v -> withFieldErrors opts = false -> Errs v = None.
Proof.
  intros [Hc Hf] Hoff. unfold consistent in Hc. rewrite Hf, Hoff in Hc. exact Hc.
Qed.

Lemma wellFormed_allowed opts : wellFormed opts allowed.
Proof. split; intros _; cbn; auto. Qed.

Lemma wellFormed_forbidden opts v reason detail :
  tracks opts v ->
  wellFormed opts {| Allowed := false; ForbiddenReason := reason;
                     ForbiddenDetail := detail; ErrList := Errs v |}.
Proof.
  intros Ht. split; cbn; [discriminate |]. apply tracks_off, Ht.
Qed.

Lemma procMountStep_tracks opts vs s :
  tracks opts s.1 -> tracks opts (fold_left (procMountStep opts) vs s).1.
Proof.
  revert s. induction vs as [| [[ptr c] pathFn] vs IH]; intros s Ht; [exact Ht |].
  cbn [fold_left]. apply IH. unfold procMountStep.
  destruct (procMountOffender c) as [[name pm] |]; [| exact Ht].
  cbn. apply tracks_added. exact Ht.
Qed.

Lemma procMountOf_wellFormed opts vs : wellFormed opts (procMountOf opts vs).
Proof.
  unfold procMountOf.
  pose proof (procMountStep_tracks opts vs
                (NewViolations (withFieldErrors opts), sets.NewString [])
                (tracks_NewViolations opts)) as Ht.
  destruct (fold_left _ _ _) as [bc types]. cbn in Ht. unfold procMountResult.
  destruct (negb (Empty bc));
    [apply wellFormed_forbidden, Ht | apply wellFormed_allowed].
Qed.

Lemma procMountV1Dot0_wellFormed opts w :
  returns (procMountV1Dot0 opts) w (wellFormed opts).
Proof. apply returns_procMountV1Dot0, procMountOf_wellFormed. Qed.

(** The relaxation-aware revision: allowed at once when relaxed, the
    procMount check otherwise. *)
Lemma returns_relaxed_procMountV1Dot0 opts w (Q : CheckResult -> Prop) :
  (if relaxPolicyForUserNamespacePods w &&
      bool_decide (corev1.HostUsers (podSpec w) = Some false)
   then Q allowed
   else Q (procMountOf opts (visits opts (podSpec w)))) ->
  returns (relaxed.procMountV1Dot0 opts) w Q.
Proof.
  intros HQ. unfold relaxed.procMountV1Dot0.
  eapply returns_bind_eq; [reflexivity |].
  destruct (_ && _).
  - apply returns_ret, HQ.
  - apply (returns_procMountV1Dot0 opts w Q HQ).
Qed.

Lemma relaxed_procMountV1Dot0_wellFormed opts w :
  returns (relaxed.procMountV1Dot0 opts) w (wellFormed opts).
Proof.
  apply returns_relaxed_procMountV1Dot0.
  destruct (_ && _); [apply wellFormed_allowed | apply procMountOf_wellFormed].
Qed.

(** *** privileged *)

Lemma returns_privilegedVisitor opts ptr c pathFn bc w :
  deref (podSpec w) ptr = Some c ->
  tracks opts bc ->
  returns (privilegedVisitor opts ptr pathFn bc) w (tracks opts).
Proof.
  intros Hd Ht. unfold privilegedVisitor.
  apply (returns_then_load _ c); [exact Hd |].
  destruct (match corev1.SecurityContext_ c with Some _ => _ | None => _ end);
    [| apply returns_ret, Ht].
  destruct (withFieldErrors opts);
    (apply returns_Add; [apply Ht | apply tracks_added, Ht]).
Qed.

Lemma privilegedV1Dot0_wellFormed opts w :
  returns (privilegedV1Dot0 opts) w (wellFormed opts).
Proof.
  unfold privilegedV1Dot0. eapply returns_bind.
  - apply (returns_visitContainers opts _ w (fun _ => tracks opts)).
    + apply tracks_NewViolations.
    + intros pre ptr c pathFn bc Hd Ht.
      apply (returns_privilegedVisitor _ _ c); assumption.
  - cbn beta. intros bc Ht. destruct (negb (Empty bc)); apply returns_ret;
      [apply wellFormed_forbidden, Ht | apply wellFormed_allowed].
Qed.

(** *** hostPorts *)

Lemma returns_hostPortsVisitor opts ptr c pathFn s w :
  deref (podSpec w) ptr = Some c ->
  tracks opts s.1 ->
  returns (hostPortsVisitor opts ptr pathFn s) w (fun s' => tracks opts s'.1).
Proof.
  intros Hd Ht. destruct s as [bc ports]. unfold hostPortsVisitor. cbn in Ht.
  apply (returns_then_load _ c); [exact Hd |].
  eapply returns_bind.
  - apply (returns_range _ _ w (fun _ _ => True)); [exact I |].
    intros pre p post [[valid errFns] hostPorts] _ _.
    destruct (negb _); [destruct (withFieldErrors opts) |];
      apply returns_ret; exact I.
  - cbn beta. intros [[valid errFns] hostPorts] _.
    destruct (negb valid); [| apply returns_ret, Ht].
    destruct (withFieldErrors opts);
      (apply returns_then_Add; [apply Ht | apply returns_ret, tracks_added, Ht]).
Qed.

Lemma hostPortsV1Dot0_wellFormed opts w :
  returns (hostPortsV1Dot0 opts) w (wellFormed opts).
Proof.
  unfold hostPortsV1Dot0. eapply returns_bind.
  - apply (returns_visitContainers opts _ w (fun _ s => tracks opts s.1)).
    + apply tracks_NewViolations.
    + intros pre ptr c pathFn s Hd Ht.
      apply (returns_hostPortsVisitor _ _ c); assumption.
  - cbn beta. intros [bc ports] Ht. cbn in Ht.
    destruct (negb (Empty bc)); apply returns_ret;
      [apply wellFormed_forbidden, Ht | apply wellFormed_allowed].
Qed.

(** *** seLinuxOptions *)

Lemma returns_seLinuxVisitor opts ptr c pathFn s w :
  deref (podSpec w) ptr = Some c ->
  returns (seLinuxVisitor opts ptr pathFn s) w (fun _ => True).
Proof.
  intros Hd. destruct s as [vars badContainers]. unfold seLinuxVisitor.
  apply (returns_then_load _ c); [exact Hd |].
  destruct (corev1.SecurityContext_ c) as [sc |]; [| apply returns_ret, I].
  destruct (corev1.SELinuxOptions_ sc) as [selinuxOpts |]; [| apply returns_ret, I].
  destruct (validSELinuxOptions _ _ _ _ _) as [valid vars'].
  destruct (negb valid); apply returns_ret, I.
Qed.

Lemma seLinuxOptionsV1Dot0_wellFormed opts w :
  returns (seLinuxOptionsV1Dot0 opts) w (wellFormed opts).
Proof.
  unfold seLinuxOptionsV1Dot0. apply returns_then_getPodSpec.
  pose proof (tracks_NewViolations opts) as Ht0.
  apply returns_bind with (P := fun s => tracks opts s.1).
  { destruct (corev1.podSecurityContext (podSpec w)) as [psc |];
      [| apply returns_ret, Ht0].
    destruct (corev1.podSELinuxOptions psc) as [selinuxOpts |];
      [| apply returns_ret, Ht0].
    destruct (validSELinuxOptions _ _ _ _ _) as [valid vars].
    destruct (negb valid); [| apply returns_ret, Ht0].
    apply returns_then_Add; [apply Ht0 | apply returns_ret, tracks_added, Ht0]. }
  intros [badSetters vars] Ht. cbn in Ht. eapply returns_bind.
  { apply (returns_visitContainers opts _ w (fun _ _ => True)); [exact I |].
    intros pre ptr c pathFn s Hd _. apply (returns_seLinuxVisitor _ _ c), Hd. }
  cbn beta. intros [vars' badContainers] _.
  apply returns_bind with (P := tracks opts).
  { destruct (0 <? length badContainers); [| apply returns_ret, Ht].
    apply returns_Add; [apply Ht | apply tracks_added, Ht]. }
  intros badSetters' Ht'. destruct (negb (Empty badSetters')); apply returns_ret;
    [apply wellFormed_forbidden, Ht' | apply wellFormed_allowed].
Qed.

(** *** appArmorProfile *)

Lemma appArmorStep_tracks quote opts entries v :
  tracks opts v -> tracks opts (fold_left (appArmorStep quote opts) entries v).
Proof.
  revert v. induction entries as [| entry entries IH]; intros v Ht; [exact Ht |].
  cbn [fold_left]. apply IH. unfold appArmorStep.
  destruct (appArmorOffender entry); [apply tracks_added, Ht | exact Ht].
Qed.

Lemma returns_appArmorProfileV1Dot0 quote order opts w (Q : CheckResult -> Prop) :
  Q (appArmorOf quote opts (order (metav1.Annotations (podMetadata w)))) ->
  returns (appArmorProfileV1Dot0 quote order opts) w Q.
Proof.
  intros HQ. unfold appArmorProfileV1Dot0. apply returns_then_getPodMetadata.
  set (v0 := NewViolations (withFieldErrors opts)).
  eapply returns_bind.
  - apply (returns_range _ _ w
             (fun pre v => v = fold_left (appArmorStep quote opts) pre v0));
      [reflexivity |].
    intros pre [k val] post v _ ->. rewrite fold_left_app. cbn [fold_left].
    set (v := fold_left _ pre v0).
    assert (Hc : consistent v)
      by apply appArmorStep_tracks, tracks_NewViolations.
    unfold appArmorStep, appArmorOffender. cbn [fst snd].
    destruct (_ && _); [| apply returns_ret; reflexivity].
    destruct (withFieldErrors opts); (apply returns_Add; [exact Hc | reflexivity]).
  - cbn beta. intros v ->. unfold appArmorOf, appArmorResult in HQ.
    destruct (negb (Empty _)); apply returns_ret; exact HQ.
Qed.

Lemma appArmorOf_wellFormed quote opts entries :
  wellFormed opts (appArmorOf quote opts entries).
Proof.
  unfold appArmorOf, appArmorResult.
  pose proof (appArmorStep_tracks quote opts entries _ (tracks_NewViolations opts))
    as Ht.
  destruct (negb (Empty _));
    [apply wellFormed_forbidden, Ht | apply wellFormed_allowed].
Qed.

Lemma appArmorProfileV1Dot0_wellFormed quote order opts w :
  returns (appArmorProfileV1Dot0 quote order opts) w (wellFormed opts).
Proof. apply returns_appArmorProfileV1Dot0, appArmorOf_wellFormed. Qed.

(** ** Sorting and iteration order *)

Lemma sort_Strings_Permutation (l1 l2 : list string) :
  l1 ≡ₚ l2 -> sort.Strings l1 = sort.Strings l2.
Proof.
  intros Hperm. unfold sort.Strings.
  apply (Sorted_unique String.le); [apply Sorted_merge_sort, _ .. |].
  rewrite !merge_sort_Permutation. exact Hperm.
Qed.

(** [sets.String.List] ranges over the map behind the set and sorts the
    keys: whatever order the keys come in, the slice is the same. *)
Lemma sets_List_order (s : gset string) (keys : list string) :
  keys ≡ₚ elements s -> sort.Strings keys = sets.List s.
Proof. apply sort_Strings_Permutation. Qed.

Lemma appArmorStep_fold quote opts entries d e b :
  fold_left (appArmorStep quote opts) entries (mkViolations d e b) =
  mkViolations (d ++ omap (appArmorLabel quote) entries)
    (if b then
       (fun l => l ++ (if withFieldErrors opts then omap appArmorErr entries else []))
         <$> e
     else e) b.
Proof.
  revert d e. induction entries as [| entry entries IH]; intros d e.
  - cbn. rewrite app_nil_r.
    destruct b, e, (withFieldErrors opts); cbn; rewrite ?app_nil_r; reflexivity.
  - cbn [fold_left]. rewrite !omap_cons.
    change (appArmorStep quote opts (mkViolations d e b) entry)
      with (if appArmorOffender entry
            then added (mkViolations d e b) (entry.1 +:+ "=" +:+ quote entry.2)
                   (if withFieldErrors opts
                    then [withBadValue (forbidden (key annotationsPath entry.1))
                                       (field.VString entry.2)]
                    else [])
            else mkViolations d e b).
    change (appArmorLabel quote entry)
      with (if appArmorOffender entry
            then Some (entry.1 +:+ "=" +:+ quote entry.2) else None).
    change (appArmorErr entry)
      with (if appArmorOffender entry
            then invoke (withBadValue (forbidden (key annotationsPath entry.1))
                                      (field.VString entry.2))
            else None).
    destruct (appArmorOffender entry); [| apply IH].
    unfold added. cbn [data errs v_withFieldErrors]. rewrite IH.
    rewrite <- app_assoc. f_equal.
    destruct b; [| reflexivity]. destruct e as [l |]; [| reflexivity].
    destruct (withFieldErrors opts); cbn; [| rewrite !app_nil_r; reflexivity].
    unfold raised. cbn. rewrite <- app_assoc. reflexivity.
Qed.

(** The check in terms of the labels and errors of the forbidden entries. *)
Lemma appArmorOf_entries quote opts entries :
  appArmorOf quote opts entries =
  appArmorResult
    (mkViolations (omap (appArmorLabel quote) entries)
       (if withFieldErrors opts then Some (omap appArmorErr entries) else None)
       (withFieldErrors opts)).
Proof.
  unfold appArmorOf, NewViolations.
  destruct (withFieldErrors opts) eqn:Hon; cbn [data errs v_withFieldErrors];
    rewrite appArmorStep_fold, ?Hon; reflexivity.
Qed.

Lemma appArmorOf_Permutation quote opts entries1 entries2 :
  entries1 ≡ₚ entries2 ->
  let r1 := appArmorOf quote opts entries1 in
  let r2 := appArmorOf quote opts entries2 in
  Allowed r1 = Allowed r2 /\
  ForbiddenReason r1 = ForbiddenReason r2 /\
  ForbiddenDetail r1 = ForbiddenDetail r2 /\
  sameErrors (ErrList r1) (ErrList r2).
Proof.
  intros Hperm. cbn zeta. rewrite !appArmorOf_entries. unfold appArmorResult.
  assert (Hlabels : omap (appArmorLabel quote) entries1
                    ≡ₚ omap (appArmorLabel quote) entries2)
    by (rewrite Hperm; reflexivity).
  assert (Herrs : omap appArmorErr entries1 ≡ₚ omap appArmorErr entries2)
    by (rewrite Hperm; reflexivity).
  unfold Empty, Data, Errs. cbn [data errs].
  rewrite (sort_Strings_Permutation _ _ Hlabels).
  rewrite (Permutation_length Hlabels).
  destruct (negb _); cbn; [| auto].
  repeat split. destruct (withFieldErrors opts); [exact Herrs | exact I].
Qed.

(** The error list of the result does not depend on the rendering of the
    labels. *)
Lemma appArmorOf_ErrList quote opts entries :
  ErrList (appArmorOf quote opts entries) =
  if withFieldErrors opts && existsb appArmorOffender entries
  then Some (omap appArmorErr entries) else None.
Proof.
  rewrite appArmorOf_entries. unfold appArmorResult, Empty, Errs. cbn [data errs].
  assert (Hlen : (length (omap (appArmorLabel quote) entries) =? 0)
                 = negb (existsb appArmorOffender entries)).
  { induction entries as [| entry entries IH]; [reflexivity |].
    rewrite omap_cons. cbn [existsb]. unfold appArmorLabel at 1.
    destruct (appArmorOffender entry); [reflexivity | exact IH]. }
  rewrite Hlen, negb_involutive.
  destruct (existsb appArmorOffender entries), (withFieldErrors opts); reflexivity.
Qed.

Lemma appArmorProfileV1Dot0_eq quote order opts w :
  appArmorProfileV1Dot0 quote order opts w =
  Returns (appArmorOf quote opts (order (metav1.Annotations (podMetadata w)))) w.
Proof.
  destruct (returns_appArmorProfileV1Dot0 quote order opts w
              (fun r => r = appArmorOf quote opts
                              (order (metav1.Annotations (podMetadata w))))
              eq_refl) as (r & Hr & ->).
  exact Hr.
Qed.

(** ** Lazy paths and deferred errors *)

Lemma field_elems_chain (root : field.Path) (name : string)
    (moreNames : list string) :
  field.elems (field.chain (Some root) name moreNames) =
  field.elems root ++ ((fun n => (n, "")) <$> name :: moreNames).
Proof.
  unfold field.chain.
  assert (Hfold : forall r,
    field.elems (fold_left (fun r anotherName =>
                              field.mkPath anotherName "" (Some r)) moreNames r) =
    field.elems r ++ ((fun n => (n, "")) <$> moreNames)).
  { induction moreNames as [| anotherName moreNames IH]; intros r.
    - cbn. rewrite app_nil_r. reflexivity.
    - cbn [fold_left fmap list_fmap]. rewrite IH. cbn [field.elems].
      rewrite <- app_assoc. reflexivity. }
  rewrite Hfold. cbn [field.elems fmap list_fmap].
  rewrite <- app_assoc. reflexivity.
Qed.

(** ** The table of TestProcMount *)

(** The three entries of the table, run as the test runs them, on the
    relaxation-aware revision: the toggle is engaged for the second entry
    only, field errors are asked for in the third. *)
Example TestProcMount_procMount :
  relaxed.procMountV1Dot0 {| withFieldErrors := false |}
    (tests.procMountWorld false (Some false)) =
  Returns {| Allowed := false; ForbiddenReason := "procMount";
             ForbiddenDetail := expectDetail_d_e; ErrList := None |}
          (tests.procMountWorld false (Some false)).
Proof. reflexivity. Qed.

Example TestProcMount_procMount_relaxed :
  relaxed.procMountV1Dot0 {| withFieldErrors := false |}
    (tests.procMountWorld true (Some false)) =
  Returns {| Allowed := true; ForbiddenReason := ""; ForbiddenDetail := "";
             ErrList := None |}
          (tests.procMountWorld true (Some false)).
Proof. reflexivity. Qed.

Example TestProcMount_procMount_field_errors :
  relaxed.procMountV1Dot0 {| withFieldErrors := true |}
    (tests.procMountWorld false None) =
  Returns {| Allowed := false; ForbiddenReason := "procMount";
             ForbiddenDetail := expectDetail_d_e;
             ErrList :=
               Some [expectErr_index3;
                     {| field.Type_ := field.ErrorTypeForbidden;
                        field.Field := "spec.containers[4].securityContext.procMount";
                        field.BadValue := field.VString "other";
                        field.Detail := "" |}] |}
          (tests.procMountWorld false None).
Proof. reflexivity. Qed.

(** The types of the detail are sorted, not listed as met: with the types of
    d and e exchanged the detail is the same. *)
Lemma procMount_detail_sorts_types (opts : options) (w : World) :
  omap procMountOffender (allContainers (podSpec w)) =
    [("d", "other"); ("e", "Unmasked")] ->
  returns (procMountV1Dot0 opts) w (fun r => ForbiddenDetail r = expectDetail_d_e).
Proof.
  intros Hoff. apply returns_procMountV1Dot0.
  rewrite procMountOf_visits, Hoff. reflexivity.
Qed.

(** Every check returns a well-formed result; what follows from well
    formedness follows for the result of each of them. *)
Ltac from_wellFormed H :=
  first
    [ exact (returns_mono _ _ _ _ (procMountV1Dot0_wellFormed _ _) H)
    | exact (returns_mono _ _ _ _ (relaxed_procMountV1Dot0_wellFormed _ _) H)
    | exact (returns_mono _ _ _ _ (hostPortsV1Dot0_wellFormed _ _) H)
    | exact (returns_mono _ _ _ _ (privilegedV1Dot0_wellFormed _ _) H)
    | exact (returns_mono _ _ _ _ (appArmorProfileV1Dot0_wellFormed _ _ _ _) H)
    | exact (returns_mono _ _ _ _ (seLinuxOptionsV1Dot0_wellFormed _ _) H) ].

(** * The claims *)

(** C1. Zero-cost-off: with withFieldErrors false, each check
    (procMountV1Dot0 in both revisions, hostPortsV1Dot0, privilegedV1Dot0,
    appArmorProfileV1Dot0 under any iteration order, seLinuxOptionsV1Dot0)
    returns, for every pod, a result whose ErrList is nil; and an accumulator
    made by NewViolations(false) has Errs() == nil after any run of Add calls
    with any error functions. *)
Theorem zero_cost_off (opts : options) (w : World) (quote : string -> string)
    (order : MapOrder) (calls : list (string * list ErrFn)) :
  withFieldErrors opts = false ->
  returns (procMountV1Dot0 opts) w (fun r => ErrList r = None) /\
  returns (relaxed.procMountV1Dot0 opts) w (fun r => ErrList r = None) /\
  returns (hostPortsV1Dot0 opts) w (fun r => ErrList r = None) /\
  returns (privilegedV1Dot0 opts) w (fun r => ErrList r = None) /\
  returns (appArmorProfileV1Dot0 quote order opts) w (fun r => ErrList r = None) /\
  returns (seLinuxOptionsV1Dot0 opts) w (fun r => ErrList r = None) /\
  returns (addAll calls (NewViolations false)) w (fun v => Errs v = None).
Proof.
  intros Hoff.
  assert (Hwf : forall r, wellFormed opts r -> ErrList r = None)
    by (intros r [_ Hr]; exact (Hr Hoff)).
  repeat split; [from_wellFormed Hwf .. | apply returns_addAll].
Qed.

Lemma zero_cost_off_witness :
  returns (procMountV1Dot0 {| withFieldErrors := false |})
    (tests.procMountWorld false None) (fun r => ErrList r = None) /\
  returns (addAll [("d", [forbidden specPath]); ("e", [required specPath; None])]
             (NewViolations false))
    (tests.procMountWorld false None) (fun v => Errs v = None).
Proof.
  destruct (zero_cost_off {| withFieldErrors := false |}
              (tests.procMountWorld false None) (fun s => s) map_to_list
              [("d", [forbidden specPath]); ("e", [required specPath; None])]
              eq_refl) as (H1 & _ & _ & _ & _ & _ & H7).
  split; [exact H1 | exact H7].
Defined.

(** C2. For each check, every pod and all options, the evaluation returns a
    result in which Allowed == true implies that ForbiddenReason and
    ForbiddenDetail are empty and ErrList is nil. *)
Theorem allowed_is_clean (opts : options) (w : World) (quote : string -> string)
    (order : MapOrder) :
  returns (procMountV1Dot0 opts) w cleanWhenAllowed /\
  returns (relaxed.procMountV1Dot0 opts) w cleanWhenAllowed /\
  returns (hostPortsV1Dot0 opts) w cleanWhenAllowed /\
  returns (privilegedV1Dot0 opts) w cleanWhenAllowed /\
  returns (appArmorProfileV1Dot0 quote order opts) w cleanWhenAllowed /\
  returns (seLinuxOptionsV1Dot0 opts) w cleanWhenAllowed.
Proof.
  assert (Hwf : forall r, wellFormed opts r -> cleanWhenAllowed r)
    by (intros r [Hr _]; exact Hr).
  repeat split; from_wellFormed Hwf.
Qed.

(** On the pod of the test table with field errors on, the hostPorts check
    allows the pod, and its result carries nothing else. *)
Lemma allowed_is_clean_witness :
  returns (hostPortsV1Dot0 {| withFieldErrors := true |})
    (tests.procMountWorld false None)
    (fun r => Allowed r = true /\ ForbiddenReason r = "" /\
              ForbiddenDetail r = "" /\ ErrList r = None).
Proof.
  destruct (allowed_is_clean {| withFieldErrors := true |}
              (tests.procMountWorld false None) (fun s => s) map_to_list)
    as (_ & _ & (r & Hr & Hclean) & _).
  exists r. split; [exact Hr |].
  assert (Ha : Allowed r = true).
  { vm_compute in Hr. injection Hr as <-. reflexivity. }
  split; [exact Ha | exact (Hclean Ha)].
Defined.

(** The claim C3 as it is stated fails: under two iteration orders of the
    same annotations, with field errors on, appArmorProfileV1Dot0 returns two
    different results (their error lists are in different orders), whatever
    the rendering of %q. *)
Lemma appArmor_errList_order_differs :
  enumerates annotated.forward /\ enumerates annotated.backward /\
  forall quote,
    appArmorProfileV1Dot0 quote annotated.forward {| withFieldErrors := true |}
      annotated.world <>
    appArmorProfileV1Dot0 quote annotated.backward {| withFieldErrors := true |}
      annotated.world.
Proof.
  split; [intros m; reflexivity |].
  split; [intros m; apply reverse_Permutation |].
  intros quote Heq. rewrite !appArmorProfileV1Dot0_eq in Heq.
  apply (f_equal (fun o => match o with
                           | Returns r _ => ErrList r
                           | Panics => None
                           end)) in Heq.
  cbv beta iota in Heq. rewrite !appArmorOf_ErrList in Heq.
  vm_compute in Heq. discriminate Heq.
Qed.

(** C3, amended. Determinism up to the order of the field errors: under
    any two iteration orders of the annotations, appArmorProfileV1Dot0
    returns results with the same Allowed, the same ForbiddenReason and
    ForbiddenDetail, and error lists with the same entries (identical
    results when field errors are off); the checks that traverse the
    containers take no iteration order and return one result per input, the
    sorted slice of a string set being the same whatever order its keys come
    in. *)
Theorem determinism_up_to_error_order (quote : string -> string)
    (order1 order2 : MapOrder) (opts : options) (w : World) :
  enumerates order1 -> enumerates order2 ->
  (exists r1 r2,
      appArmorProfileV1Dot0 quote order1 opts w = Returns r1 w /\
      appArmorProfileV1Dot0 quote order2 opts w = Returns r2 w /\
      Allowed r1 = Allowed r2 /\
      ForbiddenReason r1 = ForbiddenReason r2 /\
      ForbiddenDetail r1 = ForbiddenDetail r2 /\
      sameErrors (ErrList r1) (ErrList r2) /\
      (withFieldErrors opts = false -> r1 = r2)) /\
  deterministic (procMountV1Dot0 opts) w /\
  deterministic (relaxed.procMountV1Dot0 opts) w /\
  deterministic (hostPortsV1Dot0 opts) w /\
  deterministic (privilegedV1Dot0 opts) w /\
  deterministic (seLinuxOptionsV1Dot0 opts) w /\
  (forall (s : gset string) (keys : list string),
      keys ≡ₚ elements s -> sort.Strings keys = sets.List s).
Proof.
  intros H1 H2. split.
  - set (m := metav1.Annotations (podMetadata w)).
    exists (appArmorOf quote opts (order1 m)), (appArmorOf quote opts (order2 m)).
    split; [apply appArmorProfileV1Dot0_eq |].
    split; [apply appArmorProfileV1Dot0_eq |].
    assert (Hperm : order1 m ≡ₚ order2 m) by (rewrite (H1 m), (H2 m); reflexivity).
    destruct (appArmorOf_Permutation quote opts _ _ Hperm) as (Ha & Hr & Hd & He).
    repeat (split; [assumption |]).
    intros Hoff.
    pose proof (appArmorOf_wellFormed quote opts (order1 m)) as [_ Hn1].
    pose proof (appArmorOf_wellFormed quote opts (order2 m)) as [_ Hn2].
    specialize (Hn1 Hoff). specialize (Hn2 Hoff).
    destruct (appArmorOf quote opts (order1 m)), (appArmorOf quote opts (order2 m)).
    cbn in *. congruence.
  - repeat split.
    + exact (returns_deterministic _ _ _ (procMountV1Dot0_wellFormed opts w)).
    + exact (returns_deterministic _ _ _ (relaxed_procMountV1Dot0_wellFormed opts w)).
    + exact (returns_deterministic _ _ _ (hostPortsV1Dot0_wellFormed opts w)).
    + exact (returns_deterministic _ _ _ (privilegedV1Dot0_wellFormed opts w)).
    + exact (returns_deterministic _ _ _ (seLinuxOptionsV1Dot0_wellFormed opts w)).
    + apply sets_List_order.
Qed.

Lemma determinism_up_to_error_order_witness :
  exists r1 r2,
    appArmorProfileV1Dot0 (fun s => s) annotated.forward
      {| withFieldErrors := true |} annotated.world = Returns r1 annotated.world /\
    appArmorProfileV1Dot0 (fun s => s) annotated.backward
      {| withFieldErrors := true |} annotated.world = Returns r2 annotated.world /\
    Allowed r1 = Allowed r2 /\
    ForbiddenReason r1 = ForbiddenReason r2 /\
    ForbiddenDetail r1 = ForbiddenDetail r2 /\
    sameErrors (ErrList r1) (ErrList r2).
Proof.
  destruct (determinism_up_to_error_order (fun s => s)
              annotated.forward annotated.backward
              {| withFieldErrors := true |} annotated.world)
    as ((r1 & r2 & E1 & E2 & Ha & Hr & Hd & He & _) & _).
  - intros m. reflexivity.
  - intros m. apply reverse_Permutation.
  - exists r1, r2. auto 10.
Defined.

(** C4. PathFn short-circuit: composing onto the nil PathFn with child,
    index or key gives the nil PathFn; composing onto a non-nil parent gives
    a non-nil PathFn that, when invoked, invokes the parent, returns nil if
    the parent does, and otherwise returns the parent's path extended by
    exactly the given index, key or names. *)
Theorem pathFn_composition (name : string) (moreNames : list string) (i : nat)
    (k : string) :
  (index None i = None /\ child None name moreNames = None /\ key None k = None) /\
  (forall parent, exists composed,
      index (Some parent) i = Some composed /\
      forall u, composed u = match parent u with
                             | None => None
                             | Some p => Some (field.Index p i)
                             end) /\
  (forall parent, exists composed,
      child (Some parent) name moreNames = Some composed /\
      forall u, composed u = match parent u with
                             | None => None
                             | Some p => Some (field.Child p name moreNames)
                             end) /\
  (forall parent, exists composed,
      key (Some parent) k = Some composed /\
      forall u, composed u = match parent u with
                             | None => None
                             | Some p => Some (field.Key p k)
                             end) /\
  (forall p, field.elems (field.Index p i) =
             field.elems p ++ [("", strconv.Itoa (Z.of_nat i))]) /\
  (forall p, field.elems (field.Key p k) = field.elems p ++ [("", k)]) /\
  (forall p, field.elems (field.Child p name moreNames) =
             field.elems p ++ ((fun n => (n, "")) <$> name :: moreNames)).
Proof.
  split; [repeat split |].
  split; [intros parent; eexists; split; [reflexivity | intros []; reflexivity] |].
  split; [intros parent; eexists; split; [reflexivity | intros []; reflexivity] |].
  split; [intros parent; eexists; split; [reflexivity | intros []; reflexivity] |].
  split; [reflexivity |]. split; [reflexivity |].
  intros p. apply field_elems_chain.
Qed.

(** C5. Pluralization and sorting: when the offenders met by the traversal
    are exactly a container named d with proc mount type Unmasked and then a
    container named e with type other, the procMount check returns a result
    that is not allowed and whose detail is exactly
    containers "d", "e" must not set securityContext.procMount to
    "Unmasked", "other": the names quoted and comma-joined in traversal order,
    the distinct types sorted, the noun in the plural. *)
Theorem procMount_detail_d_e (opts : options) (w : World) :
  omap procMountOffender (allContainers (podSpec w)) =
    [("d", "Unmasked"); ("e", "other")] ->
  returns (procMountV1Dot0 opts) w (fun r =>
    Allowed r = false /\ ForbiddenDetail r = expectDetail_d_e).
Proof.
  intros Hoff. apply returns_procMountV1Dot0.
  rewrite procMountOf_visits, Hoff. split; reflexivity.
Qed.

Lemma procMount_detail_d_e_witness :
  returns (procMountV1Dot0 {| withFieldErrors := false |})
    (tests.procMountWorld false (Some false))
    (fun r => Allowed r = false /\ ForbiddenDetail r = expectDetail_d_e).
Proof. apply procMount_detail_d_e. vm_compute. reflexivity. Defined.

(** C6. Structured-error exactness: with field errors on, when the container
    at index 3 of spec.containers sets the proc mount type Unmasked and no
    other container of the pod (init, regular or ephemeral) offends, the
    procMount check returns an error list with exactly one entry: a Forbidden
    error at spec.containers[3].securityContext.procMount with bad value
    Unmasked. *)
Theorem procMount_errList_index3 (opts : options) (w : World)
    (c : corev1.Container) (name : string) :
  withFieldErrors opts = true ->
  corev1.Containers (podSpec w) !! 3 = Some c ->
  procMountOffender c = Some (name, corev1.UnmaskedProcMount) ->
  (forall ptr c', deref (podSpec w) ptr = Some c' ->
                  is_Some (procMountOffender c') -> ptr = ContainerAt 3) ->
  returns (procMountV1Dot0 opts) w (fun r =>
    ErrList r = Some [expectErr_index3]).
Proof.
  intros Hon Hc Hoff Honly. apply returns_procMountV1Dot0.
  rewrite procMountOf_visits. cbn zeta.
  assert (Hin : (name, corev1.UnmaskedProcMount)
                ∈ omap procMountOffender (allContainers (podSpec w))).
  { apply list_elem_of_omap. exists c. split; [| exact Hoff].
    unfold allContainers. rewrite !elem_of_app. right. left.
    apply list_elem_of_lookup. exists 3. exact Hc. }
  destruct (omap procMountOffender (allContainers (podSpec w))) as [| o offs];
    [apply elem_of_nil in Hin; destruct Hin |].
  cbn [procMountResult fmap list_fmap Empty data length Nat.eqb negb ErrList Errs errs].
  rewrite Hon. f_equal. unfold procMountErrFns.
  rewrite (bind_only pointer _ _
             (ContainerAt 3, c, pathFnAt opts containersFldPath 3)).
  - rewrite Hoff. unfold pathFnAt. rewrite Hon. reflexivity.
  - apply visits_NoDup.
  - apply visits_container. exact Hc.
  - intros [[ptr c'] pathFn] Hv Hne.
    destruct (procMountOffender c') as [[n pm] |] eqn:Hoff'; [| reflexivity].
    exfalso. apply Hne. cbn. apply (Honly ptr c').
    + exact (visits_deref _ _ _ Hv).
    + rewrite Hoff'. eauto.
Qed.

Lemma procMount_errList_index3_witness :
  returns (procMountV1Dot0 {| withFieldErrors := true |}) tests.onlyIndex3World
    (fun r => ErrList r = Some [expectErr_index3]).
Proof.
  apply (procMount_errList_index3 _ _
           (tests.container "d" (tests.securityContext (Some corev1.UnmaskedProcMount)))
           "d").
  - reflexivity.
  - reflexivity.
  - reflexivity.
  - intros ptr c' Hd [o Ho].
    destruct ptr as [i | i | i];
      repeat (destruct i as [| i]; [cbn in Hd; injection Hd as <-; try discriminate Ho; try reflexivity |]);
      cbn in Hd; discriminate Hd.
Defined.

(** C7. Relaxation: for a pod in a user namespace (hostUsers: false) that
    has at least one container with a non-default proc mount type, the
    relaxation-aware procMount check, run after the process-wide toggle has
    been engaged, returns the bare allowed result, whatever the containers
    are; run after the toggle has been disengaged it returns, for the
    identical pod, a result that is not allowed, with reason procMount and the
    detail that names the offenders and their types. *)
Theorem procMount_relaxation (opts : options) (w : World) :
  corev1.HostUsers (podSpec w) = Some false ->
  omap procMountOffender (allContainers (podSpec w)) ≠ [] ->
  (_ <- RelaxPolicyForUserNamespacePods true ;; relaxed.procMountV1Dot0 opts) w =
    Returns allowed (toggled true w) /\
  exists r,
    (_ <- RelaxPolicyForUserNamespacePods false ;; relaxed.procMountV1Dot0 opts) w =
      Returns r (toggled false w) /\
    Allowed r = false /\ ForbiddenReason r = "procMount" /\
    ForbiddenDetail r =
      procMountDetail (omap procMountOffender (allContainers (podSpec w))).
Proof.
  intros Hns Hoff. unfold bind. rewrite !RelaxPolicyForUserNamespacePods_toggled.
  split.
  - destruct (returns_relaxed_procMountV1Dot0 opts (toggled true w)
                (fun r => r = allowed)) as (r & Hr & ->); [| exact Hr].
    cbn. rewrite Hns. reflexivity.
  - apply (returns_relaxed_procMountV1Dot0 opts (toggled false w)).
    cbn. apply procMountOf_forbidden, Hoff.
Qed.

Lemma procMount_relaxation_witness :
  (_ <- RelaxPolicyForUserNamespacePods true ;;
   relaxed.procMountV1Dot0 {| withFieldErrors := false |})
    (tests.procMountWorld false (Some false)) =
    Returns allowed (tests.procMountWorld true (Some false)) /\
  exists r,
    (_ <- RelaxPolicyForUserNamespacePods false ;;
     relaxed.procMountV1Dot0 {| withFieldErrors := false |})
      (tests.procMountWorld false (Some false)) =
      Returns r (tests.procMountWorld false (Some false)) /\
    Allowed r = false /\ ForbiddenReason r = "procMount" /\
    ForbiddenDetail r = expectDetail_d_e.
Proof.
  apply (procMount_relaxation {| withFieldErrors := false |}
           (tests.procMountWorld false (Some false)));
    [reflexivity | vm_compute; discriminate].
Defined.

(** C8. Deferred error constructors: forbidden and required of the nil
    path function are the nil ErrFn; of a non-nil one they are a non-nil
    ErrFn that returns nil when the path function does and the Forbidden or
    Required error at the path otherwise; withBadValue of the nil ErrFn is
    nil, and of a non-nil one is an ErrFn that returns what the original
    returns, nil staying nil, with BadValue set to the given value and type,
    field and detail unchanged. *)
Theorem deferred_errors (badValue : field.Value) :
  (forbidden None = None /\ required None = None /\
   withBadValue None badValue = None) /\
  (forall pathFn, exists errFn,
      forbidden (Some pathFn) = Some errFn /\
      forall u, errFn u = match pathFn u with
                          | None => None
                          | Some path => Some (field.Forbidden path "")
                          end) /\
  (forall pathFn, exists errFn,
      required (Some pathFn) = Some errFn /\
      forall u, errFn u = match pathFn u with
                          | None => None
                          | Some path => Some (field.Required path "")
                          end) /\
  (forall f, exists errFn,
      withBadValue (Some f) badValue = Some errFn /\
      forall u, errFn u =
                match f u with
                | None => None
                | Some err =>
                    Some {| field.Type_ := field.Type_ err;
                            field.Field := field.Field err;
                            field.BadValue := badValue;
                            field.Detail := field.Detail err |}
                end) /\
  (forall pathFn, invoke (forbidden pathFn) =
                  match resolve pathFn with
                  | None => None
                  | Some path => Some (field.Forbidden path "")
                  end) /\
  (forall pathFn, invoke (required pathFn) =
                  match resolve pathFn with
                  | None => None
                  | Some path => Some (field.Required path "")
                  end).
Proof.
  split; [repeat split |].
  split; [intros pathFn; eexists; split; [reflexivity | intros []; reflexivity] |].
  split; [intros pathFn; eexists; split; [reflexivity | intros []; reflexivity] |].
  split; [intros f; eexists; split; [reflexivity | intros []; reflexivity] |].
  split; intros [pathFn |]; reflexivity.
Qed.

(** C9. No mutation: every check, on every pod and all options, returns and
    leaves the pod metadata and the pod spec exactly as they were; so does
    the shared traversal, for any visitor that itself only reads. *)
Theorem checks_leave_pod_intact {St} (opts : options) (w : World)
    (quote : string -> string) (order : MapOrder)
    (visitor : ContainerVisitor St) (s : St) :
  leavesPodIntact (procMountV1Dot0 opts) w /\
  leavesPodIntact (relaxed.procMountV1Dot0 opts) w /\
  leavesPodIntact (hostPortsV1Dot0 opts) w /\
  leavesPodIntact (privilegedV1Dot0 opts) w /\
  leavesPodIntact (appArmorProfileV1Dot0 quote order opts) w /\
  leavesPodIntact (seLinuxOptionsV1Dot0 opts) w /\
  (readsOnly visitor w -> leavesPodIntact (visitContainers opts visitor s) w).
Proof.
  repeat split.
  - exact (returns_leavesPodIntact _ _ _ (procMountV1Dot0_wellFormed opts w)).
  - exact (returns_leavesPodIntact _ _ _ (relaxed_procMountV1Dot0_wellFormed opts w)).
  - exact (returns_leavesPodIntact _ _ _ (hostPortsV1Dot0_wellFormed opts w)).
  - exact (returns_leavesPodIntact _ _ _ (privilegedV1Dot0_wellFormed opts w)).
  - exact (returns_leavesPodIntact _ _ _
             (appArmorProfileV1Dot0_wellFormed quote order opts w)).
  - exact (returns_leavesPodIntact _ _ _ (seLinuxOptionsV1Dot0_wellFormed opts w)).
  - intros Hreads. apply (returns_leavesPodIntact _ _ (fun _ => True)).
    apply (returns_visitContainers opts visitor w (fun _ _ => True)); [exact I |].
    intros pre ptr c pathFn s0 Hd _.
    destruct (Hreads ptr pathFn s0) as [s' Hs']; [rewrite Hd; eauto |].
    exists s'. auto.
Qed.

Lemma checks_leave_pod_intact_witness :
  leavesPodIntact (seLinuxOptionsV1Dot0 {| withFieldErrors := true |})
    tests.onlyIndex3World /\
  leavesPodIntact
    (visitContainers {| withFieldErrors := true |} namesVisitor [])
    tests.onlyIndex3World.
Proof.
  destruct (checks_leave_pod_intact {| withFieldErrors := true |}
              tests.onlyIndex3World (fun s => s) map_to_list namesVisitor [])
    as (_ & _ & _ & _ & _ & H6 & H7).
  split; [exact H6 |]. apply H7.
  intros ptr pathFn names [c Hc]. exists (names ++ [corev1.Name c]).
  unfold namesVisitor, bind, load. rewrite Hc. reflexivity.
Defined.

(** C10. For every pod spec, options and visitor that leaves the pod spec
    alone, visitContainers makes exactly the calls of [visits], in that
    order: one call per container, for the init containers in index order,
    then the containers, then the ephemeral containers, each with a pointer to
    that container; with withFieldErrors false every call receives the nil
    PathFn.  An ephemeral container that sets a non-default proc mount type
    therefore makes the procMount check fail, although the check documents
    only containers and initContainers. *)
Theorem visitContainers_order {St} (opts : options)
    (visitor : ContainerVisitor St) (s : St) (w : World) :
  keepsPodSpec visitor ->
  visitContainers opts visitor s w =
    visitEach visitor (visits opts (podSpec w)) s w /\
  pointer <$> visits opts (podSpec w) =
    (InitContainerAt <$> seq 0 (length (corev1.InitContainers (podSpec w)))) ++
    (ContainerAt <$> seq 0 (length (corev1.Containers (podSpec w)))) ++
    (EphemeralContainerAt <$>
       seq 0 (length (corev1.EphemeralContainers (podSpec w)))) /\
  visited <$> visits opts (podSpec w) =
    corev1.InitContainers (podSpec w) ++ corev1.Containers (podSpec w) ++
    (corev1.EphemeralContainerCommon <$> corev1.EphemeralContainers (podSpec w)) /\
  (forall v, v ∈ visits opts (podSpec w) ->
             deref (podSpec w) (pointer v) = Some (visited v)) /\
  (withFieldErrors opts = false ->
   forall v, v ∈ visits opts (podSpec w) -> v.2 = None) /\
  (forall e, e ∈ corev1.EphemeralContainers (podSpec w) ->
             is_Some (procMountOffender (corev1.EphemeralContainerCommon e)) ->
             returns (procMountV1Dot0 opts) w (fun r => Allowed r = false)).
Proof.
  intros Hkeeps. repeat split.
  - apply visitContainers_visitEach, Hkeeps.
  - apply visits_pointers.
  - apply visits_containers.
  - intros v. apply visits_deref.
  - intros Hoff v. apply visits_nil_pathFn, Hoff.
  - intros e He [o Ho]. apply returns_procMountV1Dot0.
    apply procMountOf_forbidden. intros Hnil.
    assert (Hin : o ∈ omap procMountOffender (allContainers (podSpec w))).
    { apply list_elem_of_omap. exists (corev1.EphemeralContainerCommon e).
      split; [| exact Ho]. unfold allContainers. rewrite !elem_of_app.
      right. right. apply list_elem_of_fmap. eauto. }
    rewrite Hnil in Hin. apply elem_of_nil in Hin. exact Hin.
Qed.

Lemma visitContainers_order_witness :
  visitContainers {| withFieldErrors := false |} traversal.recorder []
    traversal.world =
  Returns [(InitContainerAt 0, false); (InitContainerAt 1, false);
           (ContainerAt 0, false); (ContainerAt 1, false);
           (EphemeralContainerAt 0, false)] traversal.world /\
  returns (procMountV1Dot0 {| withFieldErrors := false |}) traversal.world
    (fun r => Allowed r = false).
Proof.
  destruct (visitContainers_order {| withFieldErrors := false |}
              traversal.recorder [] traversal.world) as (H1 & _ & _ & _ & _ & H6).
  - intros ptr pathFn calls w calls' w' [= _ ->]. reflexivity.
  - split.
    + rewrite H1. reflexivity.
    + apply (H6 {| corev1.EphemeralContainerCommon :=
                     tests.container "e0"
                       (tests.securityContext (Some corev1.UnmaskedProcMount));
                   corev1.TargetContainerName := "c0" |}).
      * apply elem_of_cons. left. reflexivity.
      * vm_compute. eauto.
Defined.

(** * Further properties of the code *)

(** ** Strings *)

Lemma append_assoc (s1 s2 s3 : string) : (s1 +:+ s2) +:+ s3 = s1 +:+ s2 +:+ s3.
Proof.
  induction s1 as [| a s1 IH]; [reflexivity |].
  change (String a ((s1 +:+ s2) +:+ s3) = String a (s1 +:+ s2 +:+ s3)).
  rewrite IH. reflexivity.
Qed.

Lemma append_nil_r (s : string) : s +:+ "" = s.
Proof.
  induction s as [| a s IH]; [reflexivity |].
  change (String a (s +:+ "") = String a s). rewrite IH. reflexivity.
Qed.

(** ** Paths and deferred errors, composed *)

Lemma String_chain (root : field.Path) (name : string) (moreNames : list string) :
  Forall (fun n => n ≠ "") (name :: moreNames) ->
  field.String (field.chain (Some root) name moreNames) =
  field.String root +:+ dotted (name :: moreNames).
Proof.
  intros Hne. unfold field.chain.
  assert (Hfold : forall r,
    Forall (fun n => n ≠ "") moreNames ->
    field.String (fold_left (fun r anotherName =>
                               field.mkPath anotherName "" (Some r)) moreNames r) =
    field.String r +:+ dotted moreNames).
  { clear Hne. induction moreNames as [| n ns IH]; intros r Hns.
    - cbn. rewrite append_nil_r. reflexivity.
    - apply Forall_cons in Hns as [Hn Hns]. cbn [fold_left]. rewrite (IH _ Hns).
      cbn [field.String dotted]. destruct (decide (n = "")) as [-> | _]; [congruence |].
      rewrite append_assoc. reflexivity. }
  apply Forall_cons in Hne as [Hn Hns]. rewrite (Hfold _ Hns).
  cbn [field.String dotted]. destruct (decide (name = "")) as [-> | _]; [congruence |].
  rewrite append_assoc. reflexivity.
Qed.

Lemma resolve_withPath (path : option field.Path) : resolve (withPath path) = path.
Proof. destruct path; reflexivity. Qed.

Lemma resolve_index pathFn i :
  resolve (index pathFn i) = (fun p => field.Index p i) <$> resolve pathFn.
Proof. destruct pathFn as [f |]; [| reflexivity]. cbn. destruct (f tt); reflexivity. Qed.

Lemma resolve_key pathFn k :
  resolve (key pathFn k) = (fun p => field.Key p k) <$> resolve pathFn.
Proof. destruct pathFn as [f |]; [| reflexivity]. cbn. destruct (f tt); reflexivity. Qed.

Lemma resolve_child pathFn name moreNames :
  resolve (child pathFn name moreNames) =
  (fun p => field.Child p name moreNames) <$> resolve pathFn.
Proof. destruct pathFn as [f |]; [| reflexivity]. cbn. destruct (f tt); reflexivity. Qed.

Lemma String_Index p i :
  field.String (field.Index p i) =
  field.String p +:+ "[" +:+ strconv.Itoa (Z.of_nat i) +:+ "]".
Proof. reflexivity. Qed.

Lemma String_Key p k : field.String (field.Key p k) = field.String p +:+ "[" +:+ k +:+ "]".
Proof. reflexivity. Qed.

Lemma invoke_forbidden pathFn :
  invoke (forbidden pathFn) = (fun p => field.Forbidden p "") <$> resolve pathFn.
Proof. destruct pathFn as [f |]; [| reflexivity]. cbn. destruct (f tt); reflexivity. Qed.

Lemma invoke_required pathFn :
  invoke (required pathFn) = (fun p => field.Required p "") <$> resolve pathFn.
Proof. destruct pathFn as [f |]; [| reflexivity]. cbn. destruct (f tt); reflexivity. Qed.

Lemma invoke_withBadValue f badValue :
  invoke (withBadValue f badValue) =
  (fun err => field.setBadValue err badValue) <$> invoke f.
Proof. destruct f as [f |]; [| reflexivity]. cbn. destruct (f tt); reflexivity. Qed.

(** X1. A deferred forbidden (or required) error with a bad value attached
    resolves, when its path does, to the error at the rendering of that path
    with that value and an empty detail, and to nil when the path does not;
    of two values attached in turn the later one is kept. *)
Theorem deferred_error_composed (pathFn : PathFn) (f : ErrFn)
    (v1 v2 : field.Value) :
  invoke (withBadValue (forbidden pathFn) v1) =
    (fun p => forbiddenAt (field.String p) v1) <$> resolve pathFn /\
  invoke (withBadValue (required pathFn) v1) =
    (fun p => {| field.Type_ := field.ErrorTypeRequired;
                 field.Field := field.String p;
                 field.BadValue := v1; field.Detail := "" |}) <$> resolve pathFn /\
  invoke (withBadValue (withBadValue f v1) v2) = invoke (withBadValue f v2).
Proof.
  rewrite !invoke_withBadValue, invoke_forbidden, invoke_required.
  repeat split.
  - destruct (resolve pathFn); reflexivity.
  - destruct (resolve pathFn); reflexivity.
  - destruct (invoke f); reflexivity.
Qed.

(** ** The accumulator over a run of calls *)

Lemma raisedBy_snoc calls call :
  raisedBy (calls ++ [call]) = raisedBy calls ++ raised call.2.
Proof. unfold raisedBy. rewrite bind_app. cbn. rewrite app_nil_r. reflexivity. Qed.

(** X2. After any run of Add calls on an accumulator made by NewViolations,
    Data holds the labels in call order, Len is the number of calls, the
    accumulator is Empty exactly when there was no call, and Errs is nil when
    field errors are off and otherwise the list of the errors the error
    functions returned, call by call and in argument order, nil functions
    and nil results skipped. *)
Theorem addAll_run (withFieldErrors : bool) (calls : list (string * list ErrFn))
    (w : World) :
  returns (addAll calls (NewViolations withFieldErrors)) w (fun v =>
    Data v = labelsOf calls /\
    Len v = length calls /\
    (Empty v = true <-> calls = []) /\
    Errs v = if withFieldErrors then Some (raisedBy calls) else None).
Proof.
  set (spec := fun pre =>
    mkViolations (labelsOf pre)
      (if withFieldErrors then Some (raisedBy pre) else None) withFieldErrors).
  apply returns_mono with (P := fun v => v = spec calls).
  - unfold addAll. apply (returns_range _ _ w (fun pre v => v = spec pre)).
    + unfold spec, NewViolations. destruct withFieldErrors; reflexivity.
    + intros pre [d errFns] post v _ ->. apply returns_Add.
      * unfold consistent, spec. cbn. destruct withFieldErrors; cbn; eauto.
      * unfold added, spec, labelsOf. cbn [data errs v_withFieldErrors fst snd].
        rewrite fmap_app, raisedBy_snoc. destruct withFieldErrors; reflexivity.
  - intros v ->. unfold spec, Data, Len, Empty, Errs, labelsOf. cbn.
    rewrite length_fmap. repeat split.
    + intros Hlen. apply Nat.eqb_eq in Hlen. destruct calls; [reflexivity | discriminate].
    + intros ->. reflexivity.
Qed.

(** The loop of [Add] on an accumulator that has the flag and no list. *)
Lemma Add_loop_no_list d errFns i dat w :
  rangeFrom i errFns
    (fun (_ : nat) (errFn : ErrFn) (v : Violations) =>
       match errFn with
       | Some errFn0 => match errFn0 tt with
                        | Some err => appendErr v err
                        | None => ret v
                        end
       | None => ret v
       end) (mkViolations (dat ++ [d]) None true) w =
  if decide (raised errFns = [])
  then Returns (mkViolations (dat ++ [d]) None true) w
  else Panics.
Proof.
  revert i. induction errFns as [| errFn errFns IH]; intros i; [reflexivity |].
  cbn [rangeFrom]. unfold bind. rewrite raised_cons.
  destruct errFn as [f |]; cbn [invoke]; [destruct (f tt) as [err |] |];
    cbn [appendErr errs ret panic].
  - destruct (decide (err :: raised errFns = [])); [discriminate | reflexivity].
  - apply IH.
  - apply IH.
Qed.

(** X3. Add panics exactly on an accumulator that has the withFieldErrors
    flag but no error list (one not made by NewViolations) when one of the
    error functions returns an error; in every other case it returns. *)
Theorem Add_panics_iff (v : Violations) (d : string) (errFns : list ErrFn)
    (w : World) :
  Add v d errFns w = Panics <->
  v_withFieldErrors v = true /\ errs v = None /\ raised errFns ≠ [].
Proof.
  destruct v as [dat er wfe]. cbn [v_withFieldErrors errs].
  destruct wfe.
  - destruct er as [l |].
    + rewrite Add_added by (cbn; eauto). split; [discriminate |].
      intros (_ & He & _). discriminate He.
    + unfold Add, range. cbn [v_withFieldErrors data errs].
      rewrite Add_loop_no_list. destruct (decide (raised errFns = [])) as [Hr | Hr].
      * split; [discriminate |]. intros (_ & _ & Hne). contradiction.
      * split; auto.
  - unfold Add. cbn [v_withFieldErrors]. split; [discriminate |].
    intros (Hf & _). discriminate Hf.
Qed.

(** ** The traversal, as an equation *)

Lemma visits_pointed opts spec :
  (fun v => (pointer v, visited v)) <$> visits opts spec = pointed spec.
Proof.
  unfold visits, pointed. rewrite !fmap_app, !fmap_imap. reflexivity.
Qed.

(** With field errors on, the path function of a visit resolves to the path
    of the container visited. *)
Lemma visits_path opts spec v :
  withFieldErrors opts = true -> v ∈ visits opts spec ->
  field.String <$> resolve v.2 = Some (ptrPath (pointer v)).
Proof.
  intros Hon. unfold visits, pathFnAt. rewrite Hon.
  rewrite !elem_of_app, !elem_of_lookup_imap.
  intros [(i & x & -> & _) | [(i & x & -> & _) | (i & x & -> & _)]]; reflexivity.
Qed.


(** A visitor that acts on its variables as the function [step], on states
    that satisfy [P], makes the traversal the fold of [step] over the
    visits. *)
Lemma visitContainers_fold {St} (opts : options) (visitor : ContainerVisitor St)
    (w : World) (step : St -> Visit -> St) (P : St -> Prop) (s0 : St) :
  P s0 ->
  (forall s v, P s -> P (step s v)) ->
  (forall ptr c pathFn s,
      deref (podSpec w) ptr = Some c -> P s ->
      visitor ptr pathFn s w = Returns (step s (ptr, c, pathFn)) w) ->
  visitContainers opts visitor s0 w =
  Returns (fold_left step (visits opts (podSpec w)) s0) w.
Proof.
  intros H0 HP Hstep.
  assert (Hfold : forall vs, P (fold_left step vs s0)).
  { intros vs. revert s0 H0. induction vs as [| v vs IH]; intros s0 H0; cbn; auto. }
  destruct (returns_visitContainers opts visitor w
              (fun pre s => s = fold_left step pre s0) s0 eq_refl)
    as (s & Hs & ->); [| exact Hs].
  intros pre ptr c pathFn s Hd ->. eexists. split.
  - apply Hstep; [exact Hd | apply Hfold].
  - rewrite fold_left_app. reflexivity.
Qed.


(** ** Checks that record one label per offending container *)

Lemma labelStep_consistent opts offends errFns bc v :
  consistent bc -> consistent (labelStep opts offends errFns bc v).
Proof.
  intros Hc. unfold labelStep. destruct (offends (visited v)); [| exact Hc].
  apply consistent_added, Hc.
Qed.

Lemma labelStep_fold opts offends errFns vs d e b :
  fold_left (labelStep opts offends errFns) vs (mkViolations d e b) =
  mkViolations (d ++ namesWhere offends (visited <$> vs))
    (if b then (fun l => l ++ raised (labelErrFns opts offends errFns vs)) <$> e
     else e) b.
Proof.
  revert d e. induction vs as [| v vs IH]; intros d e.
  - cbn. rewrite app_nil_r. destruct b, e; cbn; rewrite ?app_nil_r; reflexivity.
  - cbn [fold_left]. unfold namesWhere, labelErrFns.
    rewrite fmap_cons, omap_cons, bind_cons, raised_app.
    unfold labelStep at 2. destruct (offends (visited v)).
    + unfold added. cbn [data errs v_withFieldErrors]. rewrite IH.
      rewrite <- app_assoc. f_equal.
      destruct b; [| reflexivity]. destruct e as [l |]; [| reflexivity].
      cbn. rewrite <- app_assoc. reflexivity.
    + rewrite IH. reflexivity.
Qed.

Lemma labelErrFns_raised opts offends errFns
    (errsOf : ContainerPtr * corev1.Container -> list field.Error) vs :
  (forall v, v ∈ vs -> offends (visited v) = true ->
             raised (if withFieldErrors opts then errFns v.2 (visited v) else [])
             = errsOf (pointer v, visited v)) ->
  raised (labelErrFns opts offends errFns vs) =
  ((fun v => (pointer v, visited v)) <$> vs) ≫=
    (fun pc => if offends pc.2 then errsOf pc else []).
Proof.
  induction vs as [| v vs IH]; intros Hv; [reflexivity |].
  unfold labelErrFns. rewrite fmap_cons, !bind_cons, raised_app. cbn [snd].
  f_equal.
  - destruct (offends (visited v)) eqn:Hoff; [| reflexivity].
    apply Hv; [apply elem_of_cons; left; reflexivity | exact Hoff].
  - apply IH. intros v' Hin. apply Hv. apply elem_of_cons. right. exact Hin.
Qed.

Lemma bind_ptrsWhere {Y} (offends : corev1.Container -> bool)
    (g : ContainerPtr -> Y)
    (pcs : list (ContainerPtr * corev1.Container)) :
  pcs ≫= (fun pc => if offends pc.2 then [g pc.1] else []) =
  g <$> ptrsWhere offends pcs.
Proof.
  induction pcs as [| pc pcs IH]; [reflexivity |].
  rewrite bind_cons, IH. unfold ptrsWhere. rewrite omap_cons.
  destruct (offends pc.2); reflexivity.
Qed.

(** The error of a field below a container, at the path of the container. *)
Lemma invoke_container_field pathFn ptr name moreNames badValue :
  field.String <$> resolve pathFn = Some (ptrPath ptr) ->
  Forall (fun n => n ≠ "") (name :: moreNames) ->
  invoke (withBadValue (forbidden (child pathFn name moreNames)) badValue) =
  Some (forbiddenAt (ptrPath ptr +:+ dotted (name :: moreNames)) badValue).
Proof.
  intros Hpath Hne. rewrite invoke_withBadValue, invoke_forbidden, resolve_child.
  destruct (resolve pathFn) as [p |]; [| discriminate].
  injection Hpath as Hpath. cbn [fmap option_fmap option_map].
  unfold field.Forbidden, field.setBadValue, forbiddenAt, field.Child.
  cbn [field.Type_ field.Field field.Detail].
  rewrite (String_chain _ _ _ Hne), Hpath. reflexivity.
Qed.

(** *** privileged *)

Lemma privilegedVisitor_step opts ptr c pathFn bc w :
  deref (podSpec w) ptr = Some c ->
  consistent bc ->
  privilegedVisitor opts ptr pathFn bc w =
  Returns (labelStep opts privilegedOffender (fun p _ => [privilegedErrFn p])
             bc (ptr, c, pathFn)) w.
Proof.
  intros Hd Hc. unfold privilegedVisitor, bind, load. rewrite Hd.
  unfold labelStep. cbn [visited fst snd].
  change (match corev1.SecurityContext_ c with
          | Some sc => match corev1.Privileged sc with
                       | Some privileged => privileged
                       | None => false
                       end
          | None => false
          end) with (privilegedOffender c).
  destruct (privilegedOffender c); [| reflexivity].
  destruct (withFieldErrors opts); apply Add_added, Hc.
Qed.

Lemma privilegedV1Dot0_expected (opts : options) (w : World) :
  privilegedV1Dot0 opts w = Returns (privilegedExpected opts (podSpec w)) w.
Proof.
  unfold privilegedV1Dot0, bind.
  rewrite (visitContainers_fold opts (privilegedVisitor opts) w
             (labelStep opts privilegedOffender (fun p _ => [privilegedErrFn p]))
             consistent).
  2: apply consistent_NewViolations.
  2: intros s v; apply labelStep_consistent.
  2: intros ptr c pathFn s; apply privilegedVisitor_step.
  unfold NewViolations.
  assert (Hfold : forall e,
    fold_left (labelStep opts privilegedOffender (fun p _ => [privilegedErrFn p]))
      (visits opts (podSpec w)) (mkViolations [] e (withFieldErrors opts)) =
    mkViolations (namesWhere privilegedOffender (allContainers (podSpec w)))
      (if withFieldErrors opts
       then (fun l => l ++ ((fun ptr =>
                               forbiddenAt (ptrPath ptr +:+ ".securityContext.privileged")
                                           (field.VBool true))
                            <$> ptrsWhere privilegedOffender (pointed (podSpec w))))
            <$> e
       else e)
      (withFieldErrors opts)).
  { intros e. rewrite labelStep_fold, visits_containers, app_nil_l.
    destruct (withFieldErrors opts) eqn:Hon; [| reflexivity].
    rewrite (labelErrFns_raised opts _ _
               (fun pc => [forbiddenAt (ptrPath pc.1 +:+ ".securityContext.privileged")
                                       (field.VBool true)])).
    - rewrite visits_pointed.
      rewrite (bind_ptrsWhere privilegedOffender
                 (fun ptr => forbiddenAt (ptrPath ptr +:+ ".securityContext.privileged")
                                         (field.VBool true)) (pointed (podSpec w))).
      reflexivity.
    - intros v Hv _. rewrite Hon. unfold raised, privilegedErrFn. cbn [omap list_omap].
      rewrite (invoke_container_field _ (pointer v));
        [reflexivity | apply (visits_path _ _ _ Hon Hv) |].
      repeat constructor; discriminate. }
  unfold privilegedExpected.
  destruct (withFieldErrors opts) eqn:Hon; cbn [data errs v_withFieldErrors];
    rewrite Hfold;
    destruct (namesWhere privilegedOffender (allContainers (podSpec w)));
    reflexivity.
Qed.

Lemma namesWhere_nil offends cs :
  namesWhere offends cs = [] <-> forall c, c ∈ cs -> offends c = false.
Proof.
  unfold namesWhere. induction cs as [| c cs IH]; cbn.
  - split; [intros _ c Hc; apply elem_of_nil in Hc; destruct Hc | reflexivity].
  - destruct (offends c) eqn:Hoff.
    + split; [discriminate |]. intros Hall.
      rewrite (Hall c) in Hoff; [discriminate | apply elem_of_cons; left; reflexivity].
    + rewrite IH. split.
      * intros Hall c' [-> | Hc']%elem_of_cons; auto.
      * intros Hall c' Hc'. apply Hall. apply elem_of_cons. right. exact Hc'.
Qed.

Lemma omap_nil_iff {X Y} (f : X -> option Y) (l : list X) :
  omap f l = [] <-> forall x, x ∈ l -> f x = None.
Proof.
  induction l as [| x l IH]; cbn.
  - split; [intros _ y Hy; apply elem_of_nil in Hy; destruct Hy | reflexivity].
  - destruct (f x) eqn:Hfx.
    + split; [discriminate |]. intros Hall.
      rewrite (Hall x) in Hfx; [discriminate | apply elem_of_cons; left; reflexivity].
    + rewrite IH. split.
      * intros Hall y [-> | Hy]%elem_of_cons; auto.
      * intros Hall y Hy. apply Hall. apply elem_of_cons. right. exact Hy.
Qed.

(** X5. The privileged check allows a pod exactly when no init, regular or
    ephemeral container sets securityContext.privileged to true; otherwise it
    returns reason privileged, a detail that names the offending containers
    in traversal order, and, if field errors are on, one Forbidden error per
    offending container at <container path>.securityContext.privileged with
    bad value true, in the same order. *)
Theorem privilegedV1Dot0_spec (opts : options) (w : World) :
  privilegedV1Dot0 opts w = Returns (privilegedExpected opts (podSpec w)) w /\
  (Allowed (privilegedExpected opts (podSpec w)) = true <->
   forall c, c ∈ allContainers (podSpec w) -> privilegedOffender c = false).
Proof.
  split; [apply privilegedV1Dot0_expected |].
  rewrite <- namesWhere_nil. unfold privilegedExpected.
  destruct (namesWhere privilegedOffender (allContainers (podSpec w)));
    cbn; split; (reflexivity || discriminate).
Qed.

(** *** procMount *)

Lemma procMountErrFns_raised opts vs :
  withFieldErrors opts = true ->
  (forall v, v ∈ vs -> field.String <$> resolve v.2 = Some (ptrPath (pointer v))) ->
  raised (procMountErrFns opts vs) =
  omap (fun pc => (fun o => forbiddenAt
                              (ptrPath pc.1 +:+ ".securityContext.procMount")
                              (field.VString o.2))
                  <$> procMountOffender pc.2)
       ((fun v => (pointer v, visited v)) <$> vs).
Proof.
  intros Hon. induction vs as [| [[ptr c] pathFn] vs IH]; intros Hpaths;
    [reflexivity |].
  unfold procMountErrFns. rewrite bind_cons, raised_app, fmap_cons, omap_cons.
  cbn [pointer visited fst snd].
  fold (procMountErrFns opts vs). rewrite IH.
  2:{ intros v Hv. apply Hpaths. apply elem_of_cons. right. exact Hv. }
  destruct (procMountOffender c) as [[name pm] |]; [| reflexivity].
  rewrite Hon. unfold raised, procMountErrFn. cbn [omap list_omap].
  rewrite (invoke_container_field _ ptr).
  - reflexivity.
  - apply (Hpaths (ptr, c, pathFn)). apply elem_of_cons. left. reflexivity.
  - repeat constructor; discriminate.
Qed.

Lemma procMountV1Dot0_expected (opts : options) (w : World) :
  procMountV1Dot0 opts w = Returns (procMountExpected opts (podSpec w)) w.
Proof.
  destruct (returns_procMountV1Dot0 opts w
              (fun r => r = procMountExpected opts (podSpec w)))
    as (r & Hr & ->); [| exact Hr].
  rewrite procMountOf_visits. cbn zeta. unfold procMountExpected.
  destruct (omap procMountOffender (allContainers (podSpec w))) as [| o offs] eqn:Hoffs;
    [reflexivity |].
  unfold procMountResult, procMountDetail, Empty, Len, Data, Errs.
  cbn [data errs negb fmap list_fmap length Nat.eqb].
  rewrite fold_Insert. unfold sets.NewString. cbn [list_to_set].
  rewrite (left_id_L ∅ (∪)), length_fmap. f_equal.
  destruct (withFieldErrors opts) eqn:Hon; [| reflexivity].
  rewrite procMountErrFns_raised, visits_pointed; [reflexivity | exact Hon |].
  intros v Hv. apply (visits_path _ _ _ Hon Hv).
Qed.

(** X6. The procMount check allows a pod exactly when no init, regular or
    ephemeral container sets securityContext.procMount to a value other than
    Default; otherwise it returns reason procMount, the detail over the
    offending containers in traversal order and their distinct types sorted,
    and, if field errors are on, one Forbidden error per offending container
    at <container path>.securityContext.procMount with the type as bad value,
    in traversal order. *)
Theorem procMountV1Dot0_spec (opts : options) (w : World) :
  procMountV1Dot0 opts w = Returns (procMountExpected opts (podSpec w)) w /\
  (Allowed (procMountExpected opts (podSpec w)) = true <->
   forall c, c ∈ allContainers (podSpec w) -> procMountOffender c = None).
Proof.
  split; [apply procMountV1Dot0_expected |].
  rewrite <- omap_nil_iff. unfold procMountExpected.
  destruct (omap procMountOffender (allContainers (podSpec w)));
    cbn; split; (reflexivity || discriminate).
Qed.


(** *** hostPorts *)

Lemma badPortsIn_snoc ports p :
  badPortsIn (ports ++ [p]) =
  badPortsIn ports ++
  (if negb (corev1.HostPort p =? 0)%Z then [(length ports, corev1.HostPort p)] else []).
Proof.
  unfold badPortsIn. rewrite imap_snoc, omap_app. cbn.
  destruct (negb _); reflexivity.
Qed.

Lemma existsb_snoc {X} (f : X -> bool) (l : list X) (x : X) :
  existsb f (l ++ [x]) = existsb f l || f x.
Proof. rewrite existsb_app. cbn. rewrite orb_false_r. reflexivity. Qed.

Lemma fold_Insert_app (items1 items2 : list string) (s : gset string) :
  fold_left sets.Insert (items1 ++ items2) s =
  fold_left sets.Insert items2 (fold_left sets.Insert items1 s).
Proof. apply fold_left_app. Qed.

(** The loop of the visitor over the ports of a container. *)
Lemma hostPorts_ports_loop opts pathFn (ports : list corev1.ContainerPort)
    (forbiddenHostPorts : gset string) w :
  range ports
    (fun i p '(valid, errFns, forbiddenHostPorts) =>
       if negb (corev1.HostPort p =? 0)%Z then
         let valid := false in
         let forbiddenHostPorts :=
           sets.Insert forbiddenHostPorts (strconv.Itoa (corev1.HostPort p)) in
         if withFieldErrors opts then
           ret (valid,
                errFns ++
                  [withBadValue
                     (forbidden
                        (child (index (child pathFn "ports" []) i) "hostPort" []))
                     (field.VInt (corev1.HostPort p))],
                forbiddenHostPorts)
         else ret (valid, errFns, forbiddenHostPorts)
       else ret (valid, errFns, forbiddenHostPorts))
    (true, [], forbiddenHostPorts) w =
  Returns (negb (existsb (fun p => negb (corev1.HostPort p =? 0)%Z) ports),
           (if withFieldErrors opts
            then hostPortErrFn pathFn <$> badPortsIn ports else []),
           fold_left sets.Insert
             ((fun jp => strconv.Itoa jp.2) <$> badPortsIn ports)
             forbiddenHostPorts) w.
Proof.
  set (spec := fun pre : list corev1.ContainerPort =>
    (negb (existsb (fun p => negb (corev1.HostPort p =? 0)%Z) pre),
     (if withFieldErrors opts
      then hostPortErrFn pathFn <$> badPortsIn pre else []),
     fold_left sets.Insert
       ((fun jp => strconv.Itoa jp.2) <$> badPortsIn pre) forbiddenHostPorts)).
  match goal with
  | |- range ports ?body ?s0 w = _ =>
      destruct (returns_range ports body w (fun pre s => s = spec pre) s0)
        as (s & Hs & ->); [| | exact Hs]
  end.
  - unfold spec. cbn. destruct (withFieldErrors opts); reflexivity.
  - intros pre p post s _ ->. unfold spec.
    rewrite existsb_snoc, badPortsIn_snoc, !fmap_app, fold_Insert_app.
    destruct (negb (corev1.HostPort p =? 0)%Z) eqn:Hp.
    + rewrite orb_true_r. cbn [negb fmap list_fmap fold_left snd].
      destruct (withFieldErrors opts); apply returns_ret; reflexivity.
    + rewrite orb_false_r. cbn [fmap list_fmap fold_left]. rewrite !app_nil_r.
      apply returns_ret. reflexivity.
Qed.

Lemma hostPortsVisitor_step opts ptr c pathFn s w :
  deref (podSpec w) ptr = Some c ->
  consistent s.1 ->
  hostPortsVisitor opts ptr pathFn s w =
  Returns (hostPortsStep opts s (ptr, c, pathFn)) w.
Proof.
  intros Hd Hc. destruct s as [bc ports]. cbn [fst] in Hc.
  unfold hostPortsVisitor, load. unfold bind at 1. rewrite Hd.
  unfold bind at 1. rewrite hostPorts_ports_loop.
  unfold hostPortsStep, labelStep, hostPortStrings, hostPortErrFns, badPorts.
  cbn [visited fst snd]. fold (hostPortOffender c). rewrite negb_involutive.
  destruct (hostPortOffender c); [| reflexivity].
  unfold bind.
  destruct (withFieldErrors opts); rewrite Add_added by exact Hc; reflexivity.
Qed.

Lemma hostPortsStep_fold opts vs bc ports :
  fold_left (hostPortsStep opts) vs (bc, ports) =
  (fold_left (labelStep opts hostPortOffender hostPortErrFns) vs bc,
   fold_left sets.Insert ((visited <$> vs) ≫= hostPortStrings) ports).
Proof.
  revert bc ports. induction vs as [| v vs IH]; intros bc ports; [reflexivity |].
  cbn [fold_left]. unfold hostPortsStep at 2. cbn [fst snd]. rewrite IH.
  rewrite fmap_cons, bind_cons, fold_Insert_app. reflexivity.
Qed.

Lemma hostPortsStep_consistent opts vs s :
  consistent s.1 -> consistent (fold_left (hostPortsStep opts) vs s).1.
Proof.
  revert s. induction vs as [| v vs IH]; intros s Hc; [exact Hc |].
  cbn [fold_left]. apply IH. cbn. apply labelStep_consistent, Hc.
Qed.

Lemma hostPortOffender_false c : hostPortOffender c = false -> badPorts c = [].
Proof.
  unfold hostPortOffender, badPorts.
  induction (corev1.Ports c) as [| p ports IH] using rev_ind; [reflexivity |].
  rewrite existsb_snoc, badPortsIn_snoc. intros [H1 H2]%orb_false_elim.
  rewrite H2, (IH H1). reflexivity.
Qed.

(** The error of the host port [j] of a container, at the path of the
    container. *)
Lemma invoke_hostPort pathFn ptr jp :
  field.String <$> resolve pathFn = Some (ptrPath ptr) ->
  invoke (hostPortErrFn pathFn jp) =
  Some (forbiddenAt (ptrPath ptr +:+ ".ports[" +:+
                     strconv.Itoa (Z.of_nat jp.1) +:+ "].hostPort")
                    (field.VInt jp.2)).
Proof.
  intros Hpath. unfold hostPortErrFn.
  rewrite invoke_withBadValue, invoke_forbidden, resolve_child, resolve_index,
    resolve_child.
  destruct (resolve pathFn) as [p |]; [| discriminate].
  injection Hpath as Hpath. cbn [fmap option_fmap option_map].
  unfold field.Forbidden, field.setBadValue, forbiddenAt.
  cbn [field.Type_ field.Field field.Detail]. f_equal. f_equal.
  unfold field.Child.
  rewrite String_chain by (repeat constructor; discriminate).
  rewrite String_Index. unfold field.Child.
  rewrite String_chain by (repeat constructor; discriminate).
  rewrite Hpath. cbn [dotted]. rewrite !append_assoc. reflexivity.
Qed.

Lemma hostPortErrFns_raised opts spec :
  withFieldErrors opts = true ->
  raised (labelErrFns opts hostPortOffender hostPortErrFns (visits opts spec)) =
  pointed spec ≫= fun pc =>
    (fun jp =>
       forbiddenAt (ptrPath pc.1 +:+ ".ports[" +:+
                    strconv.Itoa (Z.of_nat jp.1) +:+ "].hostPort")
                   (field.VInt jp.2))
    <$> badPorts pc.2.
Proof.
  intros Hon.
  rewrite (labelErrFns_raised opts _ _
             (fun pc => (fun jp =>
                forbiddenAt (ptrPath pc.1 +:+ ".ports[" +:+
                             strconv.Itoa (Z.of_nat jp.1) +:+ "].hostPort")
                            (field.VInt jp.2))
              <$> badPorts pc.2)).
  - rewrite visits_pointed. induction (pointed spec) as [| pc pcs IH]; [reflexivity |].
    rewrite !bind_cons, IH. f_equal.
    destruct (hostPortOffender pc.2) eqn:Hoff; [reflexivity |].
    rewrite (hostPortOffender_false _ Hoff). reflexivity.
  - intros v Hv _. rewrite Hon. unfold hostPortErrFns. cbn [fst snd].
    pose proof (visits_path _ _ _ Hon Hv) as Hpath.
    induction (badPorts (visited v)) as [| jp jps IH]; [reflexivity |].
    rewrite !fmap_cons. unfold raised in *. rewrite omap_cons.
    rewrite (invoke_hostPort _ _ _ Hpath), IH. reflexivity.
Qed.

Lemma hostPortOffender_iff c :
  hostPortOffender c = false <->
  forall p, p ∈ corev1.Ports c -> corev1.HostPort p = 0%Z.
Proof.
  unfold hostPortOffender. induction (corev1.Ports c) as [| p ports IH]; cbn.
  - split; [intros _ p Hp; apply elem_of_nil in Hp; destruct Hp | reflexivity].
  - rewrite orb_false_iff, IH, negb_false_iff, Z.eqb_eq. split.
    + intros [Hp Hall] p' [-> | Hin]%elem_of_cons; auto.
    + intros Hall. split; [apply Hall; apply elem_of_cons; left; reflexivity |].
      intros p' Hin. apply Hall. apply elem_of_cons. right. exact Hin.
Qed.

Lemma hostPortsV1Dot0_expected (opts : options) (w : World) :
  hostPortsV1Dot0 opts w = Returns (hostPortsExpected opts (podSpec w)) w.
Proof.
  unfold hostPortsV1Dot0, bind.
  rewrite (visitContainers_fold opts (hostPortsVisitor opts) w
             (hostPortsStep opts) (fun s => consistent s.1)).
  2: apply consistent_NewViolations.
  2: intros s v Hs; cbn; apply labelStep_consistent, Hs.
  2: intros ptr c pathFn s; apply hostPortsVisitor_step.
  rewrite hostPortsStep_fold. unfold NewViolations.
  rewrite visits_containers, fold_Insert.
  unfold sets.NewString. cbn [list_to_set]. rewrite (left_id_L ∅ (∪)).
  unfold hostPortsExpected.
  destruct (withFieldErrors opts) eqn:Hon;
    rewrite labelStep_fold, visits_containers, app_nil_l;
    unfold Empty, Len, Data, Errs; cbn [data errs v_withFieldErrors];
    rewrite ?(hostPortErrFns_raised opts _ Hon);
    destruct (namesWhere hostPortOffender (allContainers (podSpec w)));
    reflexivity.
Qed.

(** X7. The hostPorts check allows a pod exactly when every port of every
    init, regular or ephemeral container has host port 0.  Otherwise it
    returns reason hostPort; a detail that names the offending containers in
    traversal order and lists the distinct host ports, written in decimal and
    sorted as strings; and, if field errors are on, one Forbidden error per
    offending port at <container path>.ports[j].hostPort with the port as bad
    value, by container and then by port index. *)
Theorem hostPortsV1Dot0_spec (opts : options) (w : World) :
  hostPortsV1Dot0 opts w = Returns (hostPortsExpected opts (podSpec w)) w /\
  (Allowed (hostPortsExpected opts (podSpec w)) = true <->
   forall c, c ∈ allContainers (podSpec w) ->
   forall p, p ∈ corev1.Ports c -> corev1.HostPort p = 0%Z).
Proof.
  split; [apply hostPortsV1Dot0_expected |].
  unfold hostPortsExpected.
  destruct (namesWhere hostPortOffender (allContainers (podSpec w))) eqn:Hn.
  + split; [intros _ | reflexivity].
    intros c Hc. apply hostPortOffender_iff.
    exact (proj1 (namesWhere_nil _ _) Hn c Hc).
  + split; [discriminate |]. intros Hall.
    assert (Hnil : namesWhere hostPortOffender (allContainers (podSpec w)) = []).
    { apply namesWhere_nil. intros c Hc. apply hostPortOffender_iff, Hall, Hc. }
    rewrite Hnil in Hn. discriminate.
Qed.


(** *** appArmorProfile *)

Lemma HasPrefix_iff (s prefix : string) :
  strings.HasPrefix s prefix = true <-> exists rest, s = prefix +:+ rest.
Proof.
  unfold strings.HasPrefix. revert s.
  induction prefix as [| a prefix IH]; intros s.
  - split; [intros _; exists s; reflexivity | destruct s; reflexivity].
  - destruct s as [| b s]; cbn.
    + split; [discriminate | intros (rest & Hrest); discriminate Hrest].
    + destruct (Ascii.ascii_dec a b) as [-> | Hne].
      * rewrite IH. split; intros (rest & Hrest); exists rest.
        -- rewrite Hrest. reflexivity.
        -- injection Hrest as Hrest. exact Hrest.
      * split; [discriminate |]. intros (rest & Hrest).
        injection Hrest as Hab _. congruence.
Qed.

Lemma allowedProfile_iff (profile : string) :
  allowedProfile profile = true <->
  profile = "" \/ profile = "runtime/default" \/
  exists name, profile = "localhost/" +:+ name.
Proof.
  unfold allowedProfile. rewrite !orb_true_iff, Nat.eqb_eq, String.eqb_eq.
  rewrite HasPrefix_iff.
  change corev1.AppArmorBetaProfileRuntimeDefault with "runtime/default".
  change corev1.AppArmorBetaProfileNamePrefix with "localhost/".
  assert (Hlen : String.length profile = 0 <-> profile = "")
    by (destruct profile; cbn; split; congruence).
  rewrite Hlen. tauto.
Qed.

Lemma appArmorErr_offender entry :
  appArmorOffender entry = true ->
  appArmorErr entry =
  Some (forbiddenAt ("metadata.annotations[" +:+ entry.1 +:+ "]")
                    (field.VString entry.2)).
Proof.
  intros Hoff. unfold appArmorErr. rewrite Hoff. reflexivity.
Qed.

Lemma omap_filter {X Y} (p : X -> bool) (f : X -> Y) (g : X -> option Y)
    (l : list X) :
  (forall x, g x = if p x then Some (f x) else None) ->
  omap g l = f <$> List.filter p l.
Proof.
  intros Hg. induction l as [| x l IH]; [reflexivity |].
  rewrite omap_cons, Hg. cbn [List.filter].
  destruct (p x); rewrite IH; reflexivity.
Qed.

Lemma filter_Permutation {X} (p : X -> bool) (l1 l2 : list X) :
  l1 ≡ₚ l2 -> List.filter p l1 ≡ₚ List.filter p l2.
Proof.
  induction 1 as [| x l1 l2 _ IH | x y l | l1 l2 l3 _ IH1 _ IH2]; cbn.
  - reflexivity.
  - destruct (p x); [constructor |]; exact IH.
  - destruct (p x), (p y); try reflexivity. constructor.
  - etransitivity; eassumption.
Qed.

Lemma sort_Strings_length (l : list string) :
  length (sort.Strings l) = length l.
Proof. unfold sort.Strings. apply Permutation_length, merge_sort_Permutation. Qed.

Lemma filter_nil_iff {X} (p : X -> bool) (l : list X) :
  List.filter p l = [] <-> forall x, x ∈ l -> p x = false.
Proof.
  induction l as [| x l IH]; cbn.
  - split; [intros _ y Hy; apply elem_of_nil in Hy; destruct Hy | reflexivity].
  - destruct (p x) eqn:Hpx.
    + split; [discriminate |]. intros Hall.
      rewrite (Hall x) in Hpx; [discriminate | apply elem_of_cons; left; reflexivity].
    + rewrite IH. split.
      * intros Hall y [-> | Hy]%elem_of_cons; auto.
      * intros Hall y Hy. apply Hall. apply elem_of_cons. right. exact Hy.
Qed.

(** X8. Whatever order the runtime yields the annotations in, the
    appArmorProfile check allows a pod exactly when every annotation whose
    key starts with container.apparmor.security.beta.kubernetes.io/ has the
    value empty, runtime/default or localhost/<name>.  Otherwise the reason
    counts the forbidden annotations, the detail is their key=<quoted value>
    labels sorted, and with field errors on the errors are, in some order,
    one Forbidden error per forbidden annotation at
    metadata.annotations[<key>] with the profile as bad value. *)
Theorem appArmorProfileV1Dot0_spec (quote : string -> string) (order : MapOrder)
    (opts : options) (w : World) :
  enumerates order ->
  returns (appArmorProfileV1Dot0 quote order opts) w (fun r =>
    let annotations := metav1.Annotations (podMetadata w) in
    let bad := appArmorForbidden annotations in
    (Allowed r = true <->
     forall k name profile,
       annotations !! k = Some profile ->
       k = "container.apparmor.security.beta.kubernetes.io/" +:+ name ->
       profile = "" \/ profile = "runtime/default" \/
       exists local, profile = "localhost/" +:+ local) /\
    (Allowed r = false ->
     ForbiddenReason r =
       pluralize "forbidden AppArmor profile" "forbidden AppArmor profiles"
                 (length bad) /\
     ForbiddenDetail r =
       strings.Join
         (sort.Strings ((fun e => e.1 +:+ "=" +:+ quote e.2) <$> bad)) ", " /\
     (withFieldErrors opts = true ->
      exists errs, ErrList r = Some errs /\
        errs ≡ₚ (fun e => forbiddenAt ("metadata.annotations[" +:+ e.1 +:+ "]")
                                      (field.VString e.2)) <$> bad))).
Proof.
  intros Horder. apply returns_appArmorProfileV1Dot0.
  set (annotations := metav1.Annotations (podMetadata w)).
  cbn zeta. rewrite appArmorOf_entries.
  assert (Hlabels : omap (appArmorLabel quote) (order annotations) ≡ₚ
                    (fun e => e.1 +:+ "=" +:+ quote e.2) <$> appArmorForbidden annotations).
  { rewrite (omap_filter appArmorOffender (fun e => e.1 +:+ "=" +:+ quote e.2))
      by reflexivity.
    unfold appArmorForbidden. rewrite (filter_Permutation _ _ _ (Horder annotations)).
    reflexivity. }
  assert (Herrs : omap appArmorErr (order annotations) ≡ₚ
                  (fun e => forbiddenAt ("metadata.annotations[" +:+ e.1 +:+ "]")
                                        (field.VString e.2))
                  <$> appArmorForbidden annotations).
  { rewrite (omap_filter appArmorOffender
               (fun e => forbiddenAt ("metadata.annotations[" +:+ e.1 +:+ "]")
                                     (field.VString e.2))).
    - unfold appArmorForbidden.
      rewrite (filter_Permutation _ _ _ (Horder annotations)). reflexivity.
    - intros e. destruct (appArmorOffender e) eqn:Hoff.
      + apply appArmorErr_offender, Hoff.
      + unfold appArmorErr. rewrite Hoff. reflexivity. }
  assert (Hnone :
    appArmorForbidden annotations = [] <->
    forall k name profile,
      annotations !! k = Some profile ->
      k = "container.apparmor.security.beta.kubernetes.io/" +:+ name ->
      profile = "" \/ profile = "runtime/default" \/
      exists local, profile = "localhost/" +:+ local).
  { unfold appArmorForbidden. rewrite filter_nil_iff. split.
    - intros Hall k name profile Hk ->.
      apply allowedProfile_iff.
      specialize (Hall (_, profile) (proj2 (elem_of_map_to_list _ _ _) Hk)).
      unfold appArmorOffender in Hall. cbn [fst snd] in Hall.
      apply andb_false_iff in Hall as [Hpre | Hal].
      + assert (Htrue : strings.HasPrefix
                  ("container.apparmor.security.beta.kubernetes.io/" +:+ name)
                  corev1.AppArmorBetaContainerAnnotationKeyPrefix = true)
          by (apply HasPrefix_iff; exists name; reflexivity).
        rewrite Htrue in Hpre. discriminate.
      + apply negb_false_iff, Hal.
    - intros Hall [k profile] Hin. apply elem_of_map_to_list in Hin.
      unfold appArmorOffender. cbn [fst snd].
      destruct (strings.HasPrefix k _) eqn:Hpre; [| reflexivity].
      apply HasPrefix_iff in Hpre as (name & Hname).
      cbn [andb]. apply negb_false_iff, allowedProfile_iff.
      exact (Hall k name profile Hin Hname). }
  unfold appArmorResult, Empty, Data, Errs. cbn [data errs].
  rewrite (Permutation_length Hlabels), length_fmap, <- Hnone.
  destruct (appArmorForbidden annotations) as [| e bad] eqn:Hbad.
  - cbn. split; [tauto | discriminate].
  - cbn [length Nat.eqb negb Allowed ForbiddenReason ForbiddenDetail ErrList].
    split; [split; discriminate |]. intros _.
    rewrite sort_Strings_length, (Permutation_length Hlabels), length_fmap.
    split; [reflexivity |]. split.
    + rewrite (sort_Strings_Permutation _ _ Hlabels). reflexivity.
    + intros ->. eexists. split; [reflexivity | exact Herrs].
Qed.

Lemma appArmorProfileV1Dot0_spec_witness :
  enumerates annotated.backward /\
  returns (appArmorProfileV1Dot0 (fun s => s) annotated.backward
             {| withFieldErrors := true |}) annotated.world
    (fun r => Allowed r = false ->
              exists errs, ErrList r = Some errs /\ length errs = 2).
Proof.
  assert (Horder : enumerates annotated.backward)
    by (intros m; apply reverse_Permutation).
  split; [exact Horder |].
  destruct (appArmorProfileV1Dot0_spec (fun s => s) annotated.backward
              {| withFieldErrors := true |} annotated.world Horder)
    as (r & Hr & _ & Hbad).
  exists r. split; [exact Hr |]. intros Hno.
  destruct (Hbad Hno) as (_ & _ & Herrs).
  destruct (Herrs eq_refl) as (errs & He & Hperm).
  exists errs. split; [exact He |].
  rewrite (Permutation_length Hperm). vm_compute. reflexivity.
Defined.


(** *** seLinuxOptions *)

Lemma validSELinuxOptions_eq opts o pathFn isPodLevel vars :
  validSELinuxOptions opts o pathFn isPodLevel vars =
  (seLinuxValid o, seLinuxRecord opts o pathFn isPodLevel vars).
Proof.
  unfold validSELinuxOptions, seLinuxValid, seLinuxRecord, seLinuxBadFields,
    seLinuxBadTypes, recordSELinuxErr, seLinuxContainerErrFns, seLinuxPodErrFns.
  destruct vars as [ce pe bt su sr]. cbn [badContainersErrFns badPodErrFns badTypes setUser setRole].
  destruct (negb (sets.Has selinux_allowed_types_1_0 (corev1.Type_ o)));
    destruct (0 <? String.length (corev1.User o));
    destruct (0 <? String.length (corev1.Role o));
    destruct pathFn as [f |];
    try destruct (isPodLevel && withFieldErrors opts);
    cbn; rewrite ?app_nil_r, <- ?app_assoc, ?orb_true_r, ?orb_false_r;
    reflexivity.
Qed.

Lemma seLinuxVisitor_step opts ptr c pathFn s w :
  deref (podSpec w) ptr = Some c ->
  seLinuxVisitor opts ptr pathFn s w =
  Returns (seLinuxStep opts s (ptr, c, pathFn)) w.
Proof.
  intros Hd. destruct s as [vars badContainers].
  unfold seLinuxVisitor, load, bind. rewrite Hd.
  unfold seLinuxStep, containerSELinuxOptions. cbn [visited fst snd].
  destruct (corev1.SecurityContext_ c) as [sc |]; [| reflexivity]. cbn.
  destruct (corev1.SELinuxOptions_ sc) as [o |]; [| reflexivity].
  rewrite validSELinuxOptions_eq. destruct (seLinuxValid o); reflexivity.
Qed.

Lemma seLinuxPodErrFns_container opts pathFn flds :
  seLinuxPodErrFns opts pathFn false flds = [].
Proof. destruct pathFn; reflexivity. Qed.

Lemma seLinuxStep_fold opts vs vars bc :
  fold_left (seLinuxStep opts) vs (vars, bc) =
  (mkSeLinuxVars
     (badContainersErrFns vars ++
        (vs ≫= fun v => seLinuxContainerErrFns v.2 (containerBadFields (visited v))))
     (badPodErrFns vars)
     (fold_left sets.Insert
        (omap containerSELinuxOptions (visited <$> vs) ≫= seLinuxBadTypes)
        (badTypes vars))
     (setUser vars ||
        existsb (fun o => 0 <? String.length (corev1.User o))
                (omap containerSELinuxOptions (visited <$> vs)))
     (setRole vars ||
        existsb (fun o => 0 <? String.length (corev1.Role o))
                (omap containerSELinuxOptions (visited <$> vs))),
   bc ++ namesWhere seLinuxOffender (visited <$> vs)).
Proof.
  revert vars bc. induction vs as [| v vs IH]; intros vars bc.
  - destruct vars. cbn. rewrite !app_nil_r, !orb_false_r. reflexivity.
  - cbn [fold_left]. unfold namesWhere. rewrite fmap_cons, !omap_cons, bind_cons.
    assert (Hoff : seLinuxOffender (visited v) =
                   from_option (fun o => negb (seLinuxValid o)) false
                               (containerSELinuxOptions (visited v)))
      by (unfold seLinuxOffender; destruct (containerSELinuxOptions _); reflexivity).
    rewrite Hoff. clear Hoff.
    change (containerBadFields (visited v))
      with (from_option seLinuxBadFields [] (containerSELinuxOptions (visited v))).
    unfold seLinuxStep at 2.
    destruct (containerSELinuxOptions (visited v)) as [o |] eqn:Ho.
    + rewrite IH. unfold seLinuxRecord.
      cbn [badContainersErrFns badPodErrFns badTypes setUser setRole fst snd
           from_option].
      rewrite seLinuxPodErrFns_container, app_nil_r, bind_cons, fold_Insert_app.
      cbn [existsb]. rewrite <- !app_assoc, !orb_assoc.
      destruct (seLinuxValid o); cbn [negb]; rewrite <- ?app_assoc; reflexivity.
    + rewrite IH. cbn [from_option].
      destruct v.2; reflexivity.
Qed.

Lemma seLinuxBadFields_names o :
  Forall (fun fv : string * string => fv.1 ≠ "") (seLinuxBadFields o).
Proof.
  unfold seLinuxBadFields.
  destruct (negb _), (0 <? String.length (corev1.User o)),
    (0 <? String.length (corev1.Role o)); repeat constructor; discriminate.
Qed.

Lemma seLinuxPodErrFns_raised opts flds :
  withFieldErrors opts = true ->
  Forall (fun fv : string * string => fv.1 ≠ "") flds ->
  raised (seLinuxPodErrFns opts None true flds) =
  (fun fv => forbiddenAt ("spec.securityContext.seLinuxOptions." +:+ fv.1)
                         (field.VString fv.2)) <$> flds.
Proof.
  intros Hon Hne. unfold seLinuxPodErrFns. rewrite Hon. cbn [andb].
  induction Hne as [| fv flds Hfv _ IH]; [reflexivity |].
  rewrite !fmap_cons. unfold raised in *. rewrite omap_cons, IH.
  rewrite invoke_withBadValue, invoke_forbidden, resolve_child.
  cbn [securityContextPath specPath resolve withPath child fmap option_fmap option_map].
  unfold field.Forbidden, field.setBadValue, forbiddenAt.
  cbn [field.Type_ field.Field field.Detail]. f_equal. f_equal.
  unfold field.Child.
  rewrite String_chain by (repeat constructor; [discriminate | exact Hfv]).
  cbn [dotted]. rewrite append_nil_r. reflexivity.
Qed.

Lemma seLinuxContainerErrFns_raised opts spec :
  withFieldErrors opts = true ->
  raised (visits opts spec ≫= fun v =>
            seLinuxContainerErrFns v.2 (containerBadFields (visited v))) =
  pointed spec ≫= fun pc =>
    (fun fv => forbiddenAt (ptrPath pc.1 +:+ ".securityContext.seLinuxOptions."
                            +:+ fv.1)
                           (field.VString fv.2))
    <$> containerBadFields pc.2.
Proof.
  intros Hon. rewrite <- (visits_pointed opts).
  assert (Hvs : forall v, v ∈ visits opts spec ->
                field.String <$> resolve v.2 = Some (ptrPath (pointer v)))
    by (intros v; apply visits_path, Hon).
  induction (visits opts spec) as [| v vs IH]; [reflexivity |].
  rewrite fmap_cons, !bind_cons, raised_app. f_equal.
  - assert (Hv := Hvs v ltac:(apply elem_of_cons; left; reflexivity)).
    cbn [fst snd].
    assert (Hne : Forall (fun fv : string * string => fv.1 ≠ "")
                         (containerBadFields (visited v))).
    { unfold containerBadFields. destruct (containerSELinuxOptions _); cbn;
        [apply seLinuxBadFields_names | constructor]. }
    unfold seLinuxContainerErrFns.
    destruct v.2 as [f |] eqn:Hf; [| discriminate Hv].
    induction Hne as [| fv flds Hfv _ IHf]; [reflexivity |].
    rewrite !fmap_cons. unfold raised in *. rewrite omap_cons, IHf.
    rewrite (invoke_container_field _ (pointer v)); [| exact Hv |].
    + cbn [dotted]. rewrite append_nil_r. reflexivity.
    + repeat constructor; [discriminate | discriminate | exact Hfv].
  - apply IH. intros v' Hin. apply Hvs. apply elem_of_cons. right. exact Hin.
Qed.

Lemma seLinuxValid_iff o :
  seLinuxValid o = true <->
  corev1.Type_ o ∈ selinux_allowed_types_1_0 /\
  corev1.User o = "" /\ corev1.Role o = "".
Proof.
  unfold seLinuxValid, seLinuxBadFields, sets.Has.
  assert (Hlen : forall s : string, (0 <? String.length s) = false <-> s = "").
  { intros s. destruct s; cbn; split; congruence. }
  rewrite <- !Hlen.
  destruct (bool_decide_reflect (corev1.Type_ o ∈ selinux_allowed_types_1_0));
    destruct (0 <? String.length (corev1.User o));
    destruct (0 <? String.length (corev1.Role o)); cbn;
    intuition congruence.
Qed.

Lemma pointed_containers spec : (pointed spec).*2 = allContainers spec.
Proof.
  rewrite <- (visits_pointed {| withFieldErrors := false |}),
    <- (visits_containers {| withFieldErrors := false |}).
  rewrite <- list_fmap_compose. reflexivity.
Qed.

Lemma seLinuxOffender_false c :
  seLinuxOffender c = false -> containerBadFields c = [].
Proof.
  unfold seLinuxOffender, containerBadFields, seLinuxValid.
  destruct (containerSELinuxOptions c) as [o |]; [| reflexivity]. cbn.
  destruct (seLinuxBadFields o); [reflexivity | discriminate].
Qed.

Lemma seLinux_no_container_errors spec :
  namesWhere seLinuxOffender (allContainers spec) = [] ->
  (pointed spec ≫= fun pc =>
     (fun fv => forbiddenAt (ptrPath pc.1 +:+ ".securityContext.seLinuxOptions."
                             +:+ fv.1)
                            (field.VString fv.2))
     <$> containerBadFields pc.2) = [].
Proof.
  rewrite namesWhere_nil, <- pointed_containers. intros Hall.
  induction (pointed spec) as [| pc pcs IH]; [reflexivity |].
  rewrite bind_cons, IH.
  - rewrite (seLinuxOffender_false pc.2); [reflexivity |].
    apply Hall. rewrite fmap_cons. apply elem_of_cons. left. reflexivity.
  - intros c Hc. apply Hall. rewrite fmap_cons. apply elem_of_cons. right. exact Hc.
Qed.

Lemma seLinuxOptionsV1Dot0_expected (opts : options) (w : World) :
  seLinuxOptionsV1Dot0 opts w = Returns (seLinuxExpected opts (podSpec w)) w.
Proof.
  unfold seLinuxOptionsV1Dot0. unfold bind at 1. unfold getPodSpec.
  assert (Hpod :
    forall (k : Violations * seLinuxVars -> M CheckResult),
    bind (match corev1.podSecurityContext (podSpec w) with
     | Some psc =>
         match corev1.podSELinuxOptions psc with
         | Some selinuxOpts =>
             let '(valid, vars) :=
               validSELinuxOptions opts selinuxOpts None true
                 (mkSeLinuxVars [] [] (sets.NewString []) false false) in
             if negb valid then
               badSetters <- Add (NewViolations (withFieldErrors opts)) "pod"
                                 (badPodErrFns vars) ;;
               ret (badSetters, vars)
             else ret (NewViolations (withFieldErrors opts), vars)
         | None => ret (NewViolations (withFieldErrors opts),
                        mkSeLinuxVars [] [] (sets.NewString []) false false)
         end
     | None => ret (NewViolations (withFieldErrors opts),
                    mkSeLinuxVars [] [] (sets.NewString []) false false)
     end) k w =
    k (match podLevelSELinuxOptions (podSpec w) with
       | Some o =>
           let vars := seLinuxRecord opts o None true
                         (mkSeLinuxVars [] [] (sets.NewString []) false false) in
           (if seLinuxValid o then NewViolations (withFieldErrors opts)
            else added (NewViolations (withFieldErrors opts)) "pod"
                       (badPodErrFns vars), vars)
       | None => (NewViolations (withFieldErrors opts),
                  mkSeLinuxVars [] [] (sets.NewString []) false false)
       end) w).
  { intros k. unfold podLevelSELinuxOptions.
    destruct (corev1.podSecurityContext (podSpec w)) as [psc |]; [| reflexivity].
    cbn. destruct (corev1.podSELinuxOptions psc) as [o |]; [| reflexivity].
    rewrite validSELinuxOptions_eq. cbn zeta.
    destruct (seLinuxValid o); [reflexivity |]. cbn [negb].
    unfold bind. rewrite Add_added by apply consistent_NewViolations.
    reflexivity. }
  rewrite Hpod. clear Hpod.
  lazymatch goal with
  | |- (let '(a, b) := ?p in _) w = _ => destruct p as [bs vars] eqn:Hp
  end.
  assert (Hc : consistent bs).
  { destruct (podLevelSELinuxOptions (podSpec w)) as [o |];
      [destruct (seLinuxValid o) |]; injection Hp as <- _;
      auto using consistent_NewViolations, consistent_added. }
  set (podOpts := podLevelSELinuxOptions (podSpec w)) in *.
  set (podBad := from_option seLinuxBadFields [] podOpts).
  assert (Hvars :
    badContainersErrFns vars = [] /\
    badTypes vars = list_to_set (option_list podOpts ≫= seLinuxBadTypes) /\
    setUser vars =
      existsb (fun o => 0 <? String.length (corev1.User o)) (option_list podOpts) /\
    setRole vars =
      existsb (fun o => 0 <? String.length (corev1.Role o)) (option_list podOpts) /\
    bs = mkViolations
           (match podBad with [] => [] | _ => ["pod"] end)
           (if withFieldErrors opts
            then Some ((fun fv =>
                          forbiddenAt
                            ("spec.securityContext.seLinuxOptions." +:+ fv.1)
                            (field.VString fv.2)) <$> podBad)
            else None)
           (withFieldErrors opts)).
  { subst podBad. destruct podOpts as [o |].
    - assert (Hbs : (if seLinuxValid o then NewViolations (withFieldErrors opts)
                     else added (NewViolations (withFieldErrors opts)) "pod"
                            (badPodErrFns
                               (seLinuxRecord opts o None true
                                  (mkSeLinuxVars [] [] (sets.NewString [])
                                                 false false)))) = bs)
        by (injection Hp as Hbs _; exact Hbs).
      assert (Hv : seLinuxRecord opts o None true
                     (mkSeLinuxVars [] [] (sets.NewString []) false false) = vars)
        by (injection Hp as _ Hv; exact Hv).
      clear Hp. subst vars.
      unfold seLinuxRecord.
      cbn [badContainersErrFns badPodErrFns badTypes setUser setRole
           option_list existsb orb app from_option seLinuxContainerErrFns].
      change (option_list (Some o)) with [o]. cbn [existsb].
      change ([o] ≫= seLinuxBadTypes) with (seLinuxBadTypes o ++ []).
      rewrite fold_Insert, app_nil_r, !orb_false_r.
      unfold sets.NewString. cbn [list_to_set]. rewrite (left_id_L ∅ (∪)).
      repeat (split; [reflexivity |]).
      subst bs. unfold seLinuxValid, NewViolations, added, seLinuxRecord.
      cbn [data errs v_withFieldErrors app badPodErrFns].
      destruct (withFieldErrors opts) eqn:Hon.
      + rewrite (seLinuxPodErrFns_raised opts _ Hon (seLinuxBadFields_names o)).
        destruct (seLinuxBadFields o); reflexivity.
      + destruct (seLinuxBadFields o); reflexivity.
    - injection Hp as <- <-. cbn.
      repeat (split; [reflexivity |]).
      unfold NewViolations. destruct (withFieldErrors opts); reflexivity. }
  destruct Hvars as (Hce & Hbt & Hsu & Hsr & Hbs). clear Hp.
  unfold bind.
  rewrite (visitContainers_fold opts (seLinuxVisitor opts) w (seLinuxStep opts)
             (fun _ => True));
    [| exact I | auto | intros; apply seLinuxVisitor_step; assumption].
  rewrite seLinuxStep_fold, visits_containers. cbn [app].
  cbn [badContainersErrFns badPodErrFns badTypes setUser setRole].
  rewrite Hce, Hbt, Hsu, Hsr, fold_Insert, <- list_to_set_app_L,
    <- bind_app, <- !existsb_app, app_nil_l.
  unfold seLinuxExpected, allSELinuxOptions. fold podOpts. fold podBad.
  set (allOpts := option_list podOpts ++
                  omap containerSELinuxOptions (allContainers (podSpec w))).
  set (types := list_to_set (allOpts ≫= seLinuxBadTypes) : gset string).
  set (anyType := 0 <? sets.Len types).
  set (anyUser := existsb (fun o => 0 <? String.length (corev1.User o)) allOpts).
  set (anyRole := existsb (fun o => 0 <? String.length (corev1.Role o)) allOpts).
  clearbody podBad anyType anyUser anyRole. subst bs.
  destruct (namesWhere seLinuxOffender (allContainers (podSpec w)))
    as [| n names] eqn:Hnames.
  + rewrite (seLinux_no_container_errors _ Hnames).
    cbn [length Nat.ltb Nat.leb]. unfold ret, Empty, Data, Errs.
    cbn [data errs].
    destruct podBad, (withFieldErrors opts), anyType, anyUser, anyRole;
      rewrite ?app_nil_r; reflexivity.
  + cbn [length Nat.ltb Nat.leb].
    rewrite Add_added by (destruct (withFieldErrors opts); cbn; eauto).
    unfold added, ret, Empty, Data, Errs. cbn [data errs v_withFieldErrors].
    destruct (withFieldErrors opts) eqn:Hon;
      rewrite ?(seLinuxContainerErrFns_raised opts _ Hon);
      destruct podBad, anyType, anyUser, anyRole; reflexivity.
Qed.

(** X9. The seLinuxOptions check allows a pod exactly when the SELinux
    options at pod level and on every init, regular and ephemeral container
    that has them carry an allowed type (empty, container_t, container_init_t
    or container_kvm_t), no user and no role.  Otherwise it returns reason
    seLinuxOptions; a detail that names the setters (pod, then the offending
    containers in traversal order) and the bad data (the distinct forbidden
    types sorted, then whether a user, then whether a role was set); and, if
    field errors are on, one Forbidden error per bad field with its value:
    those at spec.securityContext.seLinuxOptions.<field> first, then those at
    <container path>.securityContext.seLinuxOptions.<field> by container, the
    fields in the order type, user, role. *)
Theorem seLinuxOptionsV1Dot0_spec (opts : options) (w : World) :
  seLinuxOptionsV1Dot0 opts w = Returns (seLinuxExpected opts (podSpec w)) w /\
  (Allowed (seLinuxExpected opts (podSpec w)) = true <->
   forall o, o ∈ allSELinuxOptions (podSpec w) ->
     corev1.Type_ o ∈ selinux_allowed_types_1_0 /\
     corev1.User o = "" /\ corev1.Role o = "").
Proof.
  split; [apply seLinuxOptionsV1Dot0_expected |].
  unfold seLinuxExpected, allSELinuxOptions. cbn zeta.
  set (ok := fun o => corev1.Type_ o ∈ selinux_allowed_types_1_0 /\
                      corev1.User o = "" /\ corev1.Role o = "").
  assert (Hpod :
    from_option seLinuxBadFields [] (podLevelSELinuxOptions (podSpec w)) = [] <->
    forall o, o ∈ option_list (podLevelSELinuxOptions (podSpec w)) -> ok o).
  { destruct (podLevelSELinuxOptions (podSpec w)) as [o |]; cbn.
    - pose proof (seLinuxValid_iff o) as Hv. unfold seLinuxValid in Hv.
      split.
      + intros Hnil o' ->%list_elem_of_singleton. apply Hv. rewrite Hnil.
        reflexivity.
      + intros Hall. specialize (Hall o (proj2 (list_elem_of_singleton _ _) eq_refl)).
        apply Hv in Hall. destruct (seLinuxBadFields o); [reflexivity | discriminate].
    - split; [intros _ o Ho; apply elem_of_nil in Ho; destruct Ho | reflexivity]. }
  assert (Hcs :
    namesWhere seLinuxOffender (allContainers (podSpec w)) = [] <->
    forall o, o ∈ omap containerSELinuxOptions (allContainers (podSpec w)) -> ok o).
  { rewrite namesWhere_nil. split.
    - intros Hall o (c & Hc & Ho)%list_elem_of_omap.
      specialize (Hall c Hc). unfold seLinuxOffender in Hall. rewrite Ho in Hall.
      apply seLinuxValid_iff, negb_false_iff, Hall.
    - intros Hall c Hc. unfold seLinuxOffender.
      destruct (containerSELinuxOptions c) as [o |] eqn:Ho; [| reflexivity].
      apply negb_false_iff, seLinuxValid_iff, Hall, list_elem_of_omap.
      exists c. split; assumption. }
  assert (Hall :
    (forall o, o ∈ option_list (podLevelSELinuxOptions (podSpec w)) ++
                   omap containerSELinuxOptions (allContainers (podSpec w)) ->
               ok o) <->
    from_option seLinuxBadFields [] (podLevelSELinuxOptions (podSpec w)) = [] /\
    namesWhere seLinuxOffender (allContainers (podSpec w)) = []).
  { rewrite Hpod, Hcs. split.
    - intros Hall. split; intros o Ho; apply Hall, elem_of_app; auto.
    - intros [H1 H2] o [Ho | Ho]%elem_of_app; auto. }
  etransitivity; [| symmetry; exact Hall]. clear Hpod Hcs Hall.
  destruct (from_option seLinuxBadFields [] _),
    (namesWhere seLinuxOffender _); cbn;
    split; try discriminate; try tauto; intros [? ?]; discriminate.
Qed.


(** *** Across the checks *)

Lemma procMountOf_expected opts w :
  procMountOf opts (visits opts (podSpec w)) = procMountExpected opts (podSpec w).
Proof.
  destruct (returns_procMountV1Dot0 opts w
              (fun r => r = procMountOf opts (visits opts (podSpec w))) eq_refl)
    as (r & Hr & ->).
  rewrite (procMountV1Dot0_expected opts w) in Hr.
  injection Hr as <-. reflexivity.
Qed.

Lemma relaxed_procMountV1Dot0_expected opts w :
  relaxed.procMountV1Dot0 opts w =
  Returns (if relaxPolicyForUserNamespacePods w &&
              bool_decide (corev1.HostUsers (podSpec w) = Some false)
           then allowed else procMountExpected opts (podSpec w)) w.
Proof.
  destruct (returns_relaxed_procMountV1Dot0 opts w
              (fun r => r = if relaxPolicyForUserNamespacePods w &&
                               bool_decide (corev1.HostUsers (podSpec w) = Some false)
                            then allowed else procMountExpected opts (podSpec w)))
    as (r & Hr & ->); [| exact Hr].
  destruct (_ && _); [reflexivity | apply procMountOf_expected].
Qed.

Lemma sameVerdict_refl r : sameVerdict r r.
Proof. repeat split. Qed.

(** X10. Whether field errors are asked for changes nothing but the error
    list: for every pod, two calls of a check with any two options both
    return, with the same verdict, the same reason and the same detail. *)
Theorem fieldErrors_keep_verdict (w : World) (quote : string -> string)
    (order : MapOrder) :
  verdictIgnoresFieldErrors procMountV1Dot0 w /\
  verdictIgnoresFieldErrors relaxed.procMountV1Dot0 w /\
  verdictIgnoresFieldErrors hostPortsV1Dot0 w /\
  verdictIgnoresFieldErrors privilegedV1Dot0 w /\
  verdictIgnoresFieldErrors (appArmorProfileV1Dot0 quote order) w /\
  verdictIgnoresFieldErrors seLinuxOptionsV1Dot0 w.
Proof.
  repeat split; intros opts1 opts2; do 2 eexists.
  - rewrite !procMountV1Dot0_expected.
    split; [reflexivity |]. split; [reflexivity |].
    unfold procMountExpected.
    destruct (omap procMountOffender (allContainers (podSpec w)));
      apply sameVerdict_refl || (repeat split).
  - rewrite !relaxed_procMountV1Dot0_expected.
    split; [reflexivity |]. split; [reflexivity |].
    destruct (_ && _); [apply sameVerdict_refl |].
    unfold procMountExpected.
    destruct (omap procMountOffender (allContainers (podSpec w)));
      apply sameVerdict_refl || (repeat split).
  - rewrite !hostPortsV1Dot0_expected.
    split; [reflexivity |]. split; [reflexivity |].
    unfold hostPortsExpected.
    destruct (namesWhere hostPortOffender (allContainers (podSpec w)));
      apply sameVerdict_refl || (repeat split).
  - rewrite !privilegedV1Dot0_expected.
    split; [reflexivity |]. split; [reflexivity |].
    unfold privilegedExpected.
    destruct (namesWhere privilegedOffender (allContainers (podSpec w)));
      apply sameVerdict_refl || (repeat split).
  - rewrite !appArmorProfileV1Dot0_eq.
    split; [reflexivity |]. split; [reflexivity |].
    rewrite !appArmorOf_entries. unfold appArmorResult, Empty, Data.
    cbn [data]. destruct (negb _); repeat split.
  - rewrite !seLinuxOptionsV1Dot0_expected.
    split; [reflexivity |]. split; [reflexivity |].
    unfold seLinuxExpected. cbn zeta.
    destruct (_ ++ _); repeat split.
Qed.

Lemma omap_pointed_offender {Y} (g : corev1.Container -> option Y)
    (spec : corev1.PodSpec) (y : Y) (ys : list Y) :
  omap g (allContainers spec) = y :: ys ->
  exists pc, pc ∈ pointed spec /\ is_Some (g pc.2).
Proof.
  intros Hg.
  assert (Hy : y ∈ omap g (allContainers spec))
    by (rewrite Hg; apply elem_of_cons; left; reflexivity).
  apply list_elem_of_omap in Hy as (c & Hc & Hgc).
  rewrite <- pointed_containers in Hc.
  apply list_elem_of_fmap in Hc as (pc & -> & Hpc).
  exists pc. split; [exact Hpc | eauto].
Qed.

Lemma bind_nil_elem {X Y} (g : X -> list Y) (l : list X) (x : X) :
  l ≫= g = [] -> x ∈ l -> g x = [].
Proof.
  induction l as [| x' l IH]; intros Hnil Hx.
  - apply elem_of_nil in Hx. destruct Hx.
  - rewrite bind_cons in Hnil. apply app_eq_nil in Hnil as [H1 H2].
    apply elem_of_cons in Hx as [-> | Hx]; auto.
Qed.

Lemma privilegedExpected_explained opts spec :
  withFieldErrors opts = true -> explained (privilegedExpected opts spec).
Proof.
  intros Hon. unfold explained, privilegedExpected.
  destruct (namesWhere privilegedOffender (allContainers spec)) as [| n names]
    eqn:Hn; [discriminate |].
  intros _. cbn [ErrList]. rewrite Hon.
  destruct (ptrsWhere privilegedOffender (pointed spec)) as [| ptr ptrs] eqn:Hp;
    [exfalso | cbn; eauto].
  apply omap_pointed_offender in Hn as (pc & Hpc & Hsome).
  pose proof (proj1 (omap_nil_iff _ _) Hp pc Hpc) as Hnone. cbn beta in Hnone.
  destruct (privilegedOffender pc.2); [discriminate Hnone |].
  destruct Hsome as [? Hsome]. discriminate Hsome.
Qed.

Lemma procMountExpected_explained opts spec :
  withFieldErrors opts = true -> explained (procMountExpected opts spec).
Proof.
  intros Hon. unfold explained, procMountExpected.
  destruct (omap procMountOffender (allContainers spec)) as [| o offs] eqn:Hoffs;
    [discriminate |].
  intros _. cbn [ErrList]. rewrite Hon.
  match goal with
  | |- exists e errs, Some ?l = _ => destruct l as [| e errs] eqn:He; [exfalso | eauto]
  end.
  apply omap_pointed_offender in Hoffs as (pc & Hpc & Hsome).
  pose proof (proj1 (omap_nil_iff _ _) He pc Hpc) as Hnone. cbn beta in Hnone.
  destruct Hsome as [? Hsome]. rewrite Hsome in Hnone. discriminate Hnone.
Qed.

Lemma hostPortOffender_true c : hostPortOffender c = true -> badPorts c ≠ [].
Proof.
  intros Hoff Hnil. unfold hostPortOffender, badPorts in *.
  induction (corev1.Ports c) as [| p ports IH] using rev_ind; [discriminate |].
  rewrite existsb_snoc in Hoff. rewrite badPortsIn_snoc in Hnil.
  apply app_eq_nil in Hnil as [H1 H2].
  destruct (negb (corev1.HostPort p =? 0)%Z); [discriminate H2 |].
  rewrite orb_false_r in Hoff. auto.
Qed.

Lemma hostPortsExpected_explained opts spec :
  withFieldErrors opts = true -> explained (hostPortsExpected opts spec).
Proof.
  intros Hon. unfold explained, hostPortsExpected.
  destruct (namesWhere hostPortOffender (allContainers spec)) as [| n names]
    eqn:Hn; [discriminate |].
  intros _. cbn [ErrList]. rewrite Hon.
  match goal with
  | |- exists e errs, Some ?l = _ => destruct l as [| e errs] eqn:He; [exfalso | eauto]
  end.
  apply omap_pointed_offender in Hn as (pc & Hpc & Hsome).
  pose proof (bind_nil_elem _ _ pc He Hpc) as Hnone. cbn beta in Hnone.
  apply fmap_nil_inv in Hnone.
  destruct (hostPortOffender pc.2) eqn:Hoff.
  - exact (hostPortOffender_true _ Hoff Hnone).
  - destruct Hsome as [? Hsome]. discriminate Hsome.
Qed.

Lemma seLinuxOffender_true c :
  seLinuxOffender c = true -> containerBadFields c ≠ [].
Proof.
  unfold seLinuxOffender, containerBadFields, seLinuxValid.
  destruct (containerSELinuxOptions c) as [o |]; [| discriminate]. cbn.
  destruct (seLinuxBadFields o); [discriminate | intros _; discriminate].
Qed.

Lemma seLinuxExpected_explained opts spec :
  withFieldErrors opts = true -> explained (seLinuxExpected opts spec).
Proof.
  intros Hon. unfold explained, seLinuxExpected. cbn zeta.
  destruct (from_option seLinuxBadFields [] (podLevelSELinuxOptions spec))
    as [| fv podBad].
  - destruct (namesWhere seLinuxOffender (allContainers spec)) as [| n names]
      eqn:Hn; [discriminate |].
    intros _. cbn [app ErrList fmap list_fmap]. rewrite Hon.
    match goal with
    | |- exists e errs, Some ?l = _ => destruct l as [| e errs] eqn:He; [exfalso | eauto]
    end.
    apply omap_pointed_offender in Hn as (pc & Hpc & Hsome).
    pose proof (bind_nil_elem _ _ pc He Hpc) as Hnone. cbn beta in Hnone.
    apply fmap_nil_inv in Hnone.
    destruct (seLinuxOffender pc.2) eqn:Hoff.
    + exact (seLinuxOffender_true _ Hoff Hnone).
    + destruct Hsome as [? Hsome]. discriminate Hsome.
  - intros _. cbn [app ErrList]. rewrite Hon. rewrite fmap_cons.
    cbn [app]. eauto.
Qed.

Lemma appArmorOf_explained quote opts entries :
  withFieldErrors opts = true -> explained (appArmorOf quote opts entries).
Proof.
  intros Hon. unfold explained. rewrite appArmorOf_ErrList, Hon.
  rewrite appArmorOf_entries. unfold appArmorResult, Empty. cbn [data andb].
  destruct (existsb appArmorOffender entries) eqn:Hex.
  - intros _. destruct (omap appArmorErr entries) as [| e errs] eqn:He;
      [exfalso | eauto].
    apply existsb_exists in Hex as (entry & Hin & Hoff).
    apply list_elem_of_In in Hin.
    pose proof (proj1 (omap_nil_iff _ _) He entry Hin) as Hnone.
    rewrite (appArmorErr_offender _ Hoff) in Hnone. discriminate Hnone.
  - assert (Hnil : omap (appArmorLabel quote) entries = []).
    { apply omap_nil_iff. intros entry Hin. unfold appArmorLabel.
      destruct (appArmorOffender entry) eqn:Hoff; [| reflexivity].
      assert (Htrue : existsb appArmorOffender entries = true)
        by (apply existsb_exists; exists entry; split;
            [apply list_elem_of_In, Hin | exact Hoff]).
      rewrite Htrue in Hex. discriminate Hex. }
    rewrite Hnil. cbn. discriminate.
Qed.

(** X11. With field errors on, a check never forbids a pod without saying
    where: every result that is not allowed carries an error list with at
    least one field error. *)
Theorem forbidden_is_explained (opts : options) (w : World)
    (quote : string -> string) (order : MapOrder) :
  withFieldErrors opts = true ->
  returns (procMountV1Dot0 opts) w explained /\
  returns (relaxed.procMountV1Dot0 opts) w explained /\
  returns (hostPortsV1Dot0 opts) w explained /\
  returns (privilegedV1Dot0 opts) w explained /\
  returns (appArmorProfileV1Dot0 quote order opts) w explained /\
  returns (seLinuxOptionsV1Dot0 opts) w explained.
Proof.
  intros Hon. repeat split.
  - eapply returns_eq; [apply procMountV1Dot0_expected |].
    apply procMountExpected_explained, Hon.
  - eapply returns_eq; [apply relaxed_procMountV1Dot0_expected |].
    destruct (_ && _); [discriminate | apply procMountExpected_explained, Hon].
  - eapply returns_eq; [apply hostPortsV1Dot0_expected |].
    apply hostPortsExpected_explained, Hon.
  - eapply returns_eq; [apply privilegedV1Dot0_expected |].
    apply privilegedExpected_explained, Hon.
  - apply returns_appArmorProfileV1Dot0, appArmorOf_explained, Hon.
  - eapply returns_eq; [apply seLinuxOptionsV1Dot0_expected |].
    apply seLinuxExpected_explained, Hon.
Qed.

Lemma forbidden_is_explained_witness :
  withFieldErrors {| withFieldErrors := true |} = true /\
  returns (procMountV1Dot0 {| withFieldErrors := true |}) annotated.world explained /\
  returns (relaxed.procMountV1Dot0 {| withFieldErrors := true |}) annotated.world
    explained /\
  returns (hostPortsV1Dot0 {| withFieldErrors := true |}) annotated.world explained /\
  returns (privilegedV1Dot0 {| withFieldErrors := true |}) annotated.world explained /\
  returns (appArmorProfileV1Dot0 (fun s => s) annotated.forward
             {| withFieldErrors := true |}) annotated.world explained /\
  returns (seLinuxOptionsV1Dot0 {| withFieldErrors := true |}) annotated.world
    explained.
Proof.
  split; [reflexivity |].
  apply (forbidden_is_explained {| withFieldErrors := true |} annotated.world
           (fun s => s) annotated.forward).
  reflexivity.
Defined.
